(** * rclcpp: loaned messages, QoS event handlers and the parameter client

    A shallow embedding of three pieces of the client library:
    - [LoanedMessage] (rclcpp/loaned_message.hpp): a message buffer taken
      from the middleware or from a local allocator;
    - [QOSEvent] (rclcpp/qos_event.hpp and its translation unit): the
      waitable wrapping one rcl event handle;
    - [ParameterClient] (the parameter client header): the asynchronous
      parameter calls built on service clients, promises and futures.

    Pointers are integers, [0] is the null pointer.  Calls into rcl, the
    allocator, the logger and user callbacks are recorded as a trace of
    events, in program order. *)

From Stdlib Require Import ZArith Lia.
From stdpp Require Import base option list strings gmap.

Abbreviation pointer := Z.
Definition nullptr : pointer := 0%Z.

(** [!p] on a raw pointer. *)
Definition is_null (p : pointer) : bool := (p =? 0)%Z.

Inductive rcl_ret_t :=
| RCL_RET_OK
| RCL_RET_ERROR (code : Z).

Definition rcl_ret_ok (r : rcl_ret_t) : bool :=
  match r with RCL_RET_OK => true | RCL_RET_ERROR _ => false end.

(* ====================================================================== *)
(** ** LoanedMessage *)
(* ====================================================================== *)

Module LoanedMessage.

(** Modelled from the spec: [rclcpp::PublisherBase] is declared in
    publisher_base.hpp, which is not part of the sources at hand.  The
    constructor and the destructor use two const members of it: the rcl
    handle and the answer of [can_loan_messages()], the pool-loan capability
    the owning entity reports. *)
Record PublisherBase := {
  get_publisher_handle : Z;
  can_loan_messages : bool
}.

(** The rcl entry points the class calls; what they answer is the
    middleware's business. *)
Record Middleware := {
  rcl_allocate_loaned_message : Z -> Z -> pointer;
  rcl_deallocate_loaned_message : Z -> pointer -> rcl_ret_t
}.

(** [std::shared_ptr<MessageAllocator>]: the allocator instance and what
    its [allocate(n)] hands out. *)
Record MessageAllocator := {
  allocator_id : Z;
  allocate : nat -> pointer
}.

Inductive event :=
| ev_rcl_allocate_loaned_message (handle size : Z) (ret : pointer)
| ev_allocate (allocator : Z) (n : nat) (ret : pointer)
| ev_rcl_deallocate_loaned_message (handle : Z) (p : pointer) (ret : rcl_ret_t)
| ev_deallocate (allocator : Z) (p : pointer) (n : nat)
| ev_delete (p : pointer)
| RCLCPP_WARN (logger msg : string)
| RCLCPP_ERROR (logger msg : string)
| ev_rcl_reset_error.

Inductive exception :=
| runtime_error (what : string).

(** How memory comes in and goes out: through the middleware's pool,
    through the allocator, or (going out only) through the plain [delete]
    of a unique pointer that still owns something. *)
Inductive path := Pool | Fallback | PlainDelete.

Definition acquired (e : event) : option (path * pointer) :=
  match e with
  | ev_rcl_allocate_loaned_message _ _ p => Some (Pool, p)
  | ev_allocate _ _ p => Some (Fallback, p)
  | _ => None
  end.

Definition released (e : event) : option (path * pointer) :=
  match e with
  | ev_rcl_deallocate_loaned_message _ p _ => Some (Pool, p)
  | ev_deallocate _ p _ => Some (Fallback, p)
  | ev_delete p => Some (PlainDelete, p)
  | _ => None
  end.

Definition acquisitions (tr : list event) : list (path * pointer) :=
  omap acquired tr.

Definition releases (tr : list event) : list (path * pointer) :=
  omap released tr.

Definition warnings (tr : list event) : list string :=
  omap (fun e => match e with RCLCPP_WARN _ msg => Some msg | _ => None end) tr.

Section WithMessage.

Context {MessageT : Type}.
(** [sizeof(MessageT)] and the value [MessageT()] builds. *)
Variable sizeof_MessageT : Z.
Variable MessageT_init : MessageT.
Variable rcl : Middleware.

(** [std::unique_ptr<MessageT>]: null, or the address it owns together with
    the message living there. *)
Definition unique_ptr := option (pointer * MessageT).

(** [unique_ptr::release()]: the raw pointer, ownership given up. *)
Definition release (u : unique_ptr) : pointer :=
  match u with
  | Some (p, _) => p
  | None => nullptr
  end.

(** [~unique_ptr()]: [delete] on whatever is still owned. *)
Definition unique_ptr_dtor (u : unique_ptr) : list event :=
  match u with
  | Some (p, _) => [ev_delete p]
  | None => []
  end.

Record LoanedMessage := {
  pub_ : option PublisherBase;
  message_ : unique_ptr;
  message_allocator_ : MessageAllocator
}.

(** The memory request of the constructor: the branch on
    [pub_->can_loan_messages()]. *)
Definition allocate_message_memory (pub : PublisherBase)
    (allocator : MessageAllocator) : list event * pointer :=
  if can_loan_messages pub then
    let message_memory :=
      rcl_allocate_loaned_message rcl (get_publisher_handle pub) sizeof_MessageT in
    ([ev_rcl_allocate_loaned_message (get_publisher_handle pub) sizeof_MessageT
        message_memory],
     message_memory)
  else
    let message_memory := allocate allocator 1 in
    ([RCLCPP_WARN "rclcpp"
        "Currently used middleware can't loan messages. Local allocator will be used.";
      ev_allocate (allocator_id allocator) 1 message_memory],
     message_memory).

(** [LoanedMessage(pub, allocator)].  A [throw] leaves no object behind:
    the result is the exception alone. *)
Definition LoanedMessage_ctor (pub : option PublisherBase)
    (allocator : MessageAllocator) : list event * (exception + LoanedMessage) :=
  match pub with
  | None => ([], inl (runtime_error "publisher pointer is null"))
  | Some pb =>
      let '(tr, message_memory) := allocate_message_memory pb allocator in
      if is_null message_memory then
        (tr, inl (runtime_error "unable to allocate memory for loaned message"))
      else
        (tr, inr {| pub_ := pub;
                    message_ := Some (message_memory, MessageT_init);
                    message_allocator_ := allocator |})
  end.

(** [LoanedMessage(LoanedMessage && other)]: the new object and what is left
    of [other].  [std::move] of the raw pointer [pub_] copies it, and the
    shared pointer of the allocator is const, so it is copied too; only the
    unique pointer leaves [other]. *)
Definition LoanedMessage_move (other : LoanedMessage) : LoanedMessage * LoanedMessage :=
  ({| pub_ := pub_ other;
      message_ := message_ other;
      message_allocator_ := message_allocator_ other |},
   {| pub_ := pub_ other;
      message_ := None;
      message_allocator_ := message_allocator_ other |}).

(** The body of [~LoanedMessage()]: its events and the members as the body
    leaves them. *)
Definition LoanedMessage_dtor_body (m : LoanedMessage) : list event * LoanedMessage :=
  match pub_ m with
  | None =>
      ([RCLCPP_ERROR "LoanedMessage"
          "Can't deallocate message memory. Publisher instance is NULL"], m)
  | Some pb =>
      let message_memory := release (message_ m) in
      let m' := {| pub_ := pub_ m; message_ := None;
                   message_allocator_ := message_allocator_ m |} in
      if can_loan_messages pb then
        let ret :=
          rcl_deallocate_loaned_message rcl (get_publisher_handle pb) message_memory in
        if rcl_ret_ok ret then
          ([ev_rcl_deallocate_loaned_message (get_publisher_handle pb) message_memory ret],
           m')
        else
          ([ev_rcl_deallocate_loaned_message (get_publisher_handle pb) message_memory ret;
            RCLCPP_ERROR "LoanedMessage" "rcl_deallocate_loaned_message failed: %s";
            ev_rcl_reset_error],
           m')
      else
        ([ev_deallocate (allocator_id (message_allocator_ m)) message_memory 1], m')
  end.

(** The whole destruction: the body, then the members' own destructors, of
    which only the unique pointer's does anything. *)
Definition LoanedMessage_dtor (m : LoanedMessage) : list event :=
  let '(tr, m') := LoanedMessage_dtor_body m in
  tr ++ unique_ptr_dtor (message_ m').

Definition is_valid (m : LoanedMessage) : bool :=
  match message_ m with
  | Some _ => true
  | None => false
  end.

(** [get()] is [*message_]: the message when the pointer is set; on a null
    pointer the dereference has no defined result, which is [None] here. *)
Definition get (m : LoanedMessage) : option MessageT :=
  snd <$> message_ m.

(** The path the owner's capability selects. *)
Definition path_of (pb : PublisherBase) : path :=
  if can_loan_messages pb then Pool else Fallback.

End WithMessage.

Definition cannot_loan : string :=
  "Currently used middleware can't loan messages. Local allocator will be used.".

(** A publisher that can loan, one that cannot, a middleware with a pool of
    one buffer, and an allocator. *)
Definition loaning_publisher : PublisherBase :=
  {| get_publisher_handle := 7; can_loan_messages := true |}.
Definition plain_publisher : PublisherBase :=
  {| get_publisher_handle := 8; can_loan_messages := false |}.
Definition middleware0 : Middleware :=
  {| rcl_allocate_loaned_message := fun _ _ => 4096%Z;
     rcl_deallocate_loaned_message :=
       fun _ p => if is_null p then RCL_RET_ERROR 11 else RCL_RET_OK |}.
Definition allocator0 : MessageAllocator :=
  {| allocator_id := 1; allocate := fun _ => 8192%Z |}.

Definition loaned0 : LoanedMessage (MessageT := Z) :=
  {| pub_ := Some loaning_publisher;
     message_ := Some (4096%Z, 0%Z);
     message_allocator_ := allocator0 |}.

End LoanedMessage.

(* ====================================================================== *)
(** ** QOSEventHandlerBase and QOSEventHandler *)
(* ====================================================================== *)

Module QOSEvent.

(** [rcl_wait_set_t]: the array [events] of pointers to event handles, the
    only member the handler reads. *)
Record rcl_wait_set_t := {
  events : list pointer
}.

Inductive event (Info : Type) :=
| ev_rcl_take_event (ret : rcl_ret_t)
| RCUTILS_LOG_ERROR_NAMED (name msg : string)
| ev_event_callback (callback : nat) (callback_info : Info).

Arguments ev_rcl_take_event {Info} ret.
Arguments RCUTILS_LOG_ERROR_NAMED {Info} name msg.
Arguments ev_event_callback {Info} callback callback_info.

Definition is_take {Info} (e : event Info) : bool :=
  match e with ev_rcl_take_event _ => true | _ => false end.

Definition is_callback {Info} (e : event Info) : bool :=
  match e with ev_event_callback _ _ => true | _ => false end.

Definition is_log {Info} (e : event Info) : bool :=
  match e with RCUTILS_LOG_ERROR_NAMED _ _ => true | _ => false end.

Section WithEvent.

(** [rcl_event_t] as the middleware sees it, and [EventCallbackInfoT], the
    argument type of the callback. *)
Context {rcl_event_t EventCallbackInfoT : Type}.

(** [rcl_take_event(&event_handle_, &callback_info)]: the return code, what
    it wrote into the record, and the handle afterwards. *)
Variable rcl_take_event : rcl_event_t -> rcl_ret_t * EventCallbackInfoT * rcl_event_t.

(** The members of the base class, the address of [event_handle_] (what
    [&event_handle_] evaluates to), and the stored callback, a callable
    named by a number. *)
Record QOSEventHandler := {
  event_handle_ : rcl_event_t;
  event_handle_address : pointer;
  wait_set_event_index_ : nat;
  event_callback_ : nat
}.

Definition get_number_of_ready_events (h : QOSEventHandler) : N := 1%N.

(** [wait_set->events[wait_set_event_index_] == &event_handle_].  The array
    is read at one index; reading past its end has no defined result. *)
Definition is_ready (wait_set : rcl_wait_set_t) (h : QOSEventHandler) : option bool :=
  match events wait_set !! wait_set_event_index_ h with
  | Some slot => Some (slot =? event_handle_address h)%Z
  | None => None
  end.

Definition execute (h : QOSEventHandler) : list (event EventCallbackInfoT) * QOSEventHandler :=
  let '(ret, callback_info, handle') := rcl_take_event (event_handle_ h) in
  let h' := {| event_handle_ := handle';
               event_handle_address := event_handle_address h;
               wait_set_event_index_ := wait_set_event_index_ h;
               event_callback_ := event_callback_ h |} in
  if rcl_ret_ok ret then
    ([ev_rcl_take_event ret; ev_event_callback (event_callback_ h) callback_info], h')
  else
    ([ev_rcl_take_event ret;
      RCUTILS_LOG_ERROR_NAMED "rclcpp" "Couldn't take event info: %s"], h').

End WithEvent.

End QOSEvent.

(* ====================================================================== *)
(** ** AsyncParametersClient *)
(* ====================================================================== *)

Module ParameterClient.

(** *** Messages *)

(** [rcl_interfaces::ParameterValue], an opaque payload here. *)
Definition ParameterValue := Z.

(** [rclcpp::parameter::ParameterType], cast from the [uint8_t] on the wire. *)
Definition ParameterType := Z.

Record rcl_interfaces_Parameter := {
  name : string;
  value : ParameterValue
}.

(** Modelled from the spec: [rclcpp::parameter::ParameterVariant] lives in
    parameter.hpp, which is not part of the sources at hand.  A variant is
    a requested name attached to a returned value; [from_parameter] and
    [to_parameter] convert from and to the message type. *)
Record ParameterVariant := {
  variant_name : string;
  variant_value : ParameterValue
}.

Definition from_parameter (p : rcl_interfaces_Parameter) : ParameterVariant :=
  {| variant_name := name p; variant_value := value p |}.

Definition to_parameter (v : ParameterVariant) : rcl_interfaces_Parameter :=
  {| name := variant_name v; value := variant_value v |}.

Record SetParametersResult := {
  successful : bool;
  reason : string
}.

Record ListParametersResult := {
  result_names : list string;
  result_prefixes : list string
}.

Inductive request :=
| GetParameters_Request (names : list string)
| GetParameterTypes_Request (parameter_names : list string)
| SetParameters_Request (parameters : list rcl_interfaces_Parameter)
| SetParametersAtomically_Request (parameters : list rcl_interfaces_Parameter)
| ListParameters_Request (parameter_prefixes : list string) (depth : Z).

Inductive response :=
| GetParameters_Response (values : list ParameterValue)
| GetParameterTypes_Response (parameter_types : list Z)
| SetParameters_Response (results : list SetParametersResult)
| SetParametersAtomically_Response (result : SetParametersResult)
| ListParameters_Response (result : ListParametersResult).

(** *** Promises, futures and automatic storage *)

(** What a future of one of the five calls can hold. *)
Inductive result :=
| parameter_variants (l : list ParameterVariant)
| parameter_types (l : list ParameterType)
| set_parameters_results (l : list SetParametersResult)
| set_parameters_result (r : SetParametersResult)
| list_parameters_result (r : ListParametersResult).

(** The state a [std::promise] shares with its futures.  A promise destroyed
    before a value was set leaves [broken_promise] in it. *)
Inductive shared_state :=
| not_ready
| ready (v : result)
| broken_promise.

(** The objects with automatic storage duration that the continuations
    refer to: function parameters and locals of the five calls.  A promise
    and a shared future are handles on a shared state; a [std::function] is
    empty or holds a callable, named by a number. *)
Inductive object :=
| obj_names (v : list string)
| obj_promise (state : nat)
| obj_shared_future (state : nat)
| obj_callback (f : option nat).

(** The lambdas handed to [async_send_request].  Every capture is by
    reference: a closure holds the addresses of the objects it names. *)
Inductive continuation :=
| get_parameters_lambda (names promise_result future_result callback : nat)
| get_parameter_types_lambda (promise_result future_result callback : nat)
| set_parameters_lambda (promise_result future_result callback : nat)
| set_parameters_atomically_lambda (promise_result future_result callback : nat)
| list_parameters_lambda (promise_result future_result callback : nat).

Inductive event :=
| ev_user_callback (f : nat) (future_state : nat).

Record world := {
  (** automatic objects alive now, by address *)
  stack : gmap nat object;
  next_object : nat;
  shared_states : gmap nat shared_state;
  next_state : nat;
  (** requests sent and not answered yet: service, request, continuation *)
  pending : list (string * request * continuation);
  trace : list event
}.

Inductive fault :=
| null_dereference
| dangling_reference (a : nat)
| out_of_range (i : Z)
| promise_already_satisfied
| no_such_request
| wrong_response.

(** Computations over the world that may go wrong. *)
Definition M (A : Type) : Type := world -> fault + A * world.

Definition ret {A} (x : A) : M A := fun w => inr (x, w).

Definition bind {A B} (m : M A) (k : A -> M B) : M B :=
  fun w => match m w with
           | inl e => inl e
           | inr (x, w') => k x w'
           end.

Definition raise {A} (e : fault) : M A := fun _ => inl e.

Notation "'do' x <- m ; k" := (bind m (fun x => k))
  (at level 10, x name, m at level 100, k at level 200).
Notation "m ;; k" := (bind m (fun _ => k))
  (at level 100, k at level 200, right associativity).

(** A parameter or local comes to life. *)
Definition alloca (o : object) : M nat :=
  fun w => inr (next_object w,
                {| stack := <[next_object w := o]> (stack w);
                   next_object := S (next_object w);
                   shared_states := shared_states w;
                   next_state := next_state w;
                   pending := pending w;
                   trace := trace w |}).

Definition set_state (s : nat) (v : shared_state) : M unit :=
  fun w => inr (tt,
                {| stack := stack w;
                   next_object := next_object w;
                   shared_states := <[s := v]> (shared_states w);
                   next_state := next_state w;
                   pending := pending w;
                   trace := trace w |}).

(** The shared state a default-constructed [std::promise] creates. *)
Definition new_shared_state : M nat :=
  fun w => inr (next_state w,
                {| stack := stack w;
                   next_object := next_object w;
                   shared_states := <[next_state w := not_ready]> (shared_states w);
                   next_state := S (next_state w);
                   pending := pending w;
                   trace := trace w |}).

(** [~promise()] abandons its shared state: when no value was set, the
    state becomes ready with [broken_promise].  The other objects leave the
    shared states alone. *)
Definition abandon_state (st : gmap nat object) (states : gmap nat shared_state)
    (a : nat) : gmap nat shared_state :=
  match st !! a with
  | Some (obj_promise s) =>
      match states !! s with
      | Some not_ready => <[s := broken_promise]> states
      | _ => states
      end
  | _ => states
  end.

(** The end of an automatic object's lifetime. *)
Definition destroy (a : nat) : M unit :=
  fun w =>
    inr (tt,
         {| stack := delete a (stack w);
            next_object := next_object w;
            shared_states := abandon_state (stack w) (shared_states w) a;
            next_state := next_state w;
            pending := pending w;
            trace := trace w |}).

(** Access through a captured reference: defined while the object lives. *)
Definition read_names (a : nat) : M (list string) :=
  fun w => match stack w !! a with
           | Some (obj_names v) => inr (v, w)
           | _ => inl (dangling_reference a)
           end.

Definition read_promise (a : nat) : M nat :=
  fun w => match stack w !! a with
           | Some (obj_promise s) => inr (s, w)
           | _ => inl (dangling_reference a)
           end.

Definition read_shared_future (a : nat) : M nat :=
  fun w => match stack w !! a with
           | Some (obj_shared_future s) => inr (s, w)
           | _ => inl (dangling_reference a)
           end.

Definition read_callback (a : nat) : M (option nat) :=
  fun w => match stack w !! a with
           | Some (obj_callback f) => inr (f, w)
           | _ => inl (dangling_reference a)
           end.

(** [promise.set_value(v)] *)
Definition set_value (promise : nat) (v : result) : M unit :=
  do s <- read_promise promise;
  fun w => match shared_states w !! s with
           | Some not_ready => set_state s (ready v) w
           | _ => inl promise_already_satisfied
           end.

Definition emit (e : event) : M unit :=
  fun w => inr (tt,
                {| stack := stack w;
                   next_object := next_object w;
                   shared_states := shared_states w;
                   next_state := next_state w;
                   pending := pending w;
                   trace := trace w ++ [e] |}).

(** The tail every continuation shares:
    [promise_result.set_value(v); if (callback != nullptr) callback(future_result);] *)
Definition resolve (promise_result future_result callback : nat) (v : result) : M unit :=
  set_value promise_result v ;;
  do f <- read_callback callback;
  match f with
  | Some g => do s <- read_shared_future future_result; emit (ev_user_callback g s)
  | None => ret tt
  end.

(** *** The positional join of [get_parameters] *)

(** Conversions of the index expression [&pvalue - &pvalues[0]] and of its
    use in [names[i]]: a pointer difference is a signed 64-bit number, a
    vector index an unsigned one. *)
Definition to_ptrdiff_t (d : Z) : Z := ((d + 2 ^ 63) mod 2 ^ 64 - 2 ^ 63)%Z.

Definition to_size_t (i : Z) : Z := (i mod 2 ^ 64)%Z.

(** [p - q] on pointers to objects of [size] bytes. *)
Definition ptr_diff (p q size : Z) : Z := Z.quot (to_ptrdiff_t (p - q)) size.

(** [v[i]]; [None] past the end, where the read has no defined result. *)
Definition vector_at {A} (v : list A) (i : Z) : option A :=
  v !! Z.to_nat (to_size_t i).

(** Where things are while the inner lambda of [std::transform] runs: the
    storage of the vector [pvalues], and the lambda's own parameter
    [pvalue], which it receives by value, in its [k]-th call. *)
Record layout := {
  pvalues_data : Z;
  sizeof_ParameterValue : Z;
  pvalue_address : nat -> Z
}.

(** Distinct objects do not overlap: each copy [pvalue] lies in the address
    space, outside the storage of the [n] elements of the vector. *)
Definition layout_ok (L : layout) (n : nat) : bool :=
  (0 <? sizeof_ParameterValue L)%Z
  && (0 <=? pvalues_data L)%Z
  && (pvalues_data L + Z.of_nat n * sizeof_ParameterValue L <=? 2 ^ 64)%Z
  && forallb (fun k =>
        (0 <=? pvalue_address L k)%Z
        && (pvalue_address L k + sizeof_ParameterValue L <=? 2 ^ 64)%Z
        && ((pvalue_address L k + sizeof_ParameterValue L <=? pvalues_data L)%Z
            || (pvalues_data L + Z.of_nat n * sizeof_ParameterValue L
                  <=? pvalue_address L k)%Z))
       (seq 0 n).

(** [auto i = &pvalue - &pvalues[0];] in the [k]-th call. *)
Definition pvalue_index (L : layout) (k : nat) : Z :=
  ptr_diff (pvalue_address L k) (pvalues_data L) (sizeof_ParameterValue L).

(** The inner lambda: [[&names, &pvalues](ParameterValue pvalue) {...}]. *)
Definition pvalue_lambda (L : layout) (names : nat) (k : nat)
    (pvalue : ParameterValue) : M ParameterVariant :=
  let i := pvalue_index L k in
  do ns <- read_names names;
  match vector_at ns i with
  | Some n => ret (from_parameter {| name := n; value := pvalue |})
  | None => raise (out_of_range i)
  end.

(** [std::transform(pvalues.begin(), pvalues.end(), back_inserter(...), lambda)],
    from the [k]-th call on. *)
Fixpoint transform_pvalues (L : layout) (names : nat) (k : nat)
    (pvalues : list ParameterValue) : M (list ParameterVariant) :=
  match pvalues with
  | [] => ret []
  | pvalue :: rest =>
      do v <- pvalue_lambda L names k pvalue;
      do vs <- transform_pvalues L names (S k) rest;
      ret (v :: vs)
  end.

(** The specification's reading of the join, to compare the code with: the
    i-th requested name with the i-th returned value. *)
Definition spec_positional_join (names : list string) (pvalues : list ParameterValue)
    : list ParameterVariant :=
  zip_with (fun n v => {| variant_name := n; variant_value := v |}) names pvalues.

(** *** Service clients *)

Record Node := {
  get_name : string
}.

Record Client := {
  service_name : string
}.

(** Modelled from the spec: [Node::create_client] and
    [Client::async_send_request] are declared in node.hpp and client.hpp,
    which are not part of the sources at hand.  [create_client] gives a
    shared pointer to a new client of the named service.
    [async_send_request] sends asynchronously and registers the
    continuation; the event loop runs it when it dispatches the response,
    after the call that sent the request has returned. *)
Definition create_client (node : Node) (service : string) : option Client :=
  Some {| service_name := service |}.

(** [client->async_send_request(request, continuation)] through a shared
    pointer that may be null. *)
Definition async_send_request (client : option Client) (req : request)
    (k : continuation) : M unit :=
  match client with
  | None => raise null_dereference
  | Some c =>
      fun w => inr (tt,
                    {| stack := stack w;
                       next_object := next_object w;
                       shared_states := shared_states w;
                       next_state := next_state w;
                       pending := pending w ++ [(service_name c, req, k)];
                       trace := trace w |})
  end.

(** A shared pointer member is null until something is assigned to it. *)
Record AsyncParametersClient := {
  node_ : Node;
  get_parameters_client_ : option Client;
  get_parameter_types_client_ : option Client;
  set_parameters_client_ : option Client;
  set_parameters_atomically_client_ : option Client;
  list_parameters_client_ : option Client;
  describe_parameters_client_ : option Client;
  remote_node_name_ : string
}.

(** [AsyncParametersClient(node, remote_node_name)] *)
Definition AsyncParametersClient_ctor (node : Node) (remote_node_name : string)
    : AsyncParametersClient :=
  let remote :=
    if String.eqb remote_node_name "" then get_name node else remote_node_name in
  {| node_ := node;
     get_parameters_client_ := create_client node (remote +:+ "__get_parameters");
     get_parameter_types_client_ :=
       create_client node (remote +:+ "__get_parameter_types");
     set_parameters_client_ := create_client node (remote +:+ "__set_parameters");
     set_parameters_atomically_client_ := None;
     list_parameters_client_ := create_client node (remote +:+ "__list_parameters");
     describe_parameters_client_ :=
       create_client node (remote +:+ "__describe_parameters");
     remote_node_name_ := remote |}.

(** *** The five calls

    Each call brings its by-value parameters and its locals to life, sends
    the request with a continuation that names them by reference, copies
    [future_result] into the return value, and returns: the locals die in
    reverse order of declaration, then the parameters.  Of the parameters
    and locals only those a continuation captures are tracked. *)

Definition get_parameters (this : AsyncParametersClient) (names : list string)
    (callback : option nat) : M nat :=
  do names_ref <- alloca (obj_names names);
  do callback_ref <- alloca (obj_callback callback);
  do state <- new_shared_state;
  do promise_result <- alloca (obj_promise state);
  do future_result <- alloca (obj_shared_future state);
  async_send_request (get_parameters_client_ this)
    (GetParameters_Request names)
    (get_parameters_lambda names_ref promise_result future_result callback_ref) ;;
  destroy future_result ;;
  destroy promise_result ;;
  destroy callback_ref ;;
  destroy names_ref ;;
  ret state.

Definition get_parameter_types (this : AsyncParametersClient)
    (parameter_names : list string) (callback : option nat) : M nat :=
  do callback_ref <- alloca (obj_callback callback);
  do state <- new_shared_state;
  do promise_result <- alloca (obj_promise state);
  do future_result <- alloca (obj_shared_future state);
  async_send_request (get_parameter_types_client_ this)
    (GetParameterTypes_Request parameter_names)
    (get_parameter_types_lambda promise_result future_result callback_ref) ;;
  destroy future_result ;;
  destroy promise_result ;;
  destroy callback_ref ;;
  ret state.

Definition set_parameters (this : AsyncParametersClient)
    (parameters : list ParameterVariant) (callback : option nat) : M nat :=
  do callback_ref <- alloca (obj_callback callback);
  do state <- new_shared_state;
  do promise_result <- alloca (obj_promise state);
  do future_result <- alloca (obj_shared_future state);
  async_send_request (set_parameters_client_ this)
    (SetParameters_Request (to_parameter <$> parameters))
    (set_parameters_lambda promise_result future_result callback_ref) ;;
  destroy future_result ;;
  destroy promise_result ;;
  destroy callback_ref ;;
  ret state.

Definition set_parameters_atomically (this : AsyncParametersClient)
    (parameters : list ParameterVariant) (callback : option nat) : M nat :=
  do callback_ref <- alloca (obj_callback callback);
  do state <- new_shared_state;
  do promise_result <- alloca (obj_promise state);
  do future_result <- alloca (obj_shared_future state);
  async_send_request (set_parameters_atomically_client_ this)
    (SetParametersAtomically_Request (to_parameter <$> parameters))
    (set_parameters_atomically_lambda promise_result future_result callback_ref) ;;
  destroy future_result ;;
  destroy promise_result ;;
  destroy callback_ref ;;
  ret state.

Definition list_parameters (this : AsyncParametersClient)
    (parameter_prefixes : list string) (depth : Z) (callback : option nat) : M nat :=
  do callback_ref <- alloca (obj_callback callback);
  do state <- new_shared_state;
  do promise_result <- alloca (obj_promise state);
  do future_result <- alloca (obj_shared_future state);
  async_send_request (list_parameters_client_ this)
    (ListParameters_Request parameter_prefixes depth)
    (list_parameters_lambda promise_result future_result callback_ref) ;;
  destroy future_result ;;
  destroy promise_result ;;
  destroy callback_ref ;;
  ret state.

(** *** Completion *)

(** The body of a continuation, run on the response [cb_f.get()]. *)
Definition run_continuation (L : layout) (k : continuation) (resp : response) : M unit :=
  match k, resp with
  | get_parameters_lambda names promise_result future_result callback,
    GetParameters_Response pvalues =>
      do vs <- transform_pvalues L names 0 pvalues;
      resolve promise_result future_result callback (parameter_variants vs)
  | get_parameter_types_lambda promise_result future_result callback,
    GetParameterTypes_Response pts =>
      resolve promise_result future_result callback (parameter_types pts)
  | set_parameters_lambda promise_result future_result callback,
    SetParameters_Response results =>
      resolve promise_result future_result callback (set_parameters_results results)
  | set_parameters_atomically_lambda promise_result future_result callback,
    SetParametersAtomically_Response r =>
      resolve promise_result future_result callback (set_parameters_result r)
  | list_parameters_lambda promise_result future_result callback,
    ListParameters_Response r =>
      resolve promise_result future_result callback (list_parameters_result r)
  | _, _ => raise wrong_response
  end.

(** The event loop dispatches the response to the [i]-th pending request. *)
Definition handle_response (L : layout) (i : nat) (resp : response) : M unit :=
  fun w =>
    match pending w !! i with
    | None => inl no_such_request
    | Some (_, _, k) =>
        run_continuation L k resp
          {| stack := stack w;
             next_object := next_object w;
             shared_states := shared_states w;
             next_state := next_state w;
             pending := delete i (pending w);
             trace := trace w |}
    end.

(** The references a continuation captured. *)
Definition captures (k : continuation) : list nat :=
  match k with
  | get_parameters_lambda names promise_result future_result callback =>
      [names; promise_result; future_result; callback]
  | get_parameter_types_lambda promise_result future_result callback
  | set_parameters_lambda promise_result future_result callback
  | set_parameters_atomically_lambda promise_result future_result callback
  | list_parameters_lambda promise_result future_result callback =>
      [promise_result; future_result; callback]
  end.

(** Every object a continuation refers to is gone. *)
Definition captures_dead (w : world) (k : continuation) : Prop :=
  Forall (fun a => stack w !! a = None) (captures k).

(** What a call leaves behind when it returns [future]: one more pending
    request, whose continuation refers to dead objects only, and a shared
    state that holds [broken_promise] instead of waiting for a value. *)
Definition returned (w : world) (service : string) (req : request)
    (k : continuation) (future : nat) (w' : world) : Prop :=
  pending w' = pending w ++ [(service, req, k)]
  /\ captures_dead w' k
  /\ shared_states w' !! future = Some broken_promise
  /\ trace w' = trace w.

(** The response type a continuation is written for. *)
Definition accepts (k : continuation) (resp : response) : bool :=
  match k, resp with
  | get_parameters_lambda _ _ _ _, GetParameters_Response _
  | get_parameter_types_lambda _ _ _, GetParameterTypes_Response _
  | set_parameters_lambda _ _ _, SetParameters_Response _
  | set_parameters_atomically_lambda _ _ _, SetParametersAtomically_Response _
  | list_parameters_lambda _ _ _, ListParameters_Response _ => true
  | _, _ => false
  end.

(** A stack frame at the top of the address space and a vector on the
    heap, 32 bytes an element: the by-value parameter of the inner lambda
    sits in the same stack slot in each of its calls. *)
Definition layout0 : layout :=
  {| pvalues_data := 4096;
     sizeof_ParameterValue := 32;
     pvalue_address := fun _ => 140737488350000%Z |}.

(** An empty world: nothing alive, nothing sent. *)
Definition world0 : world :=
  {| stack := ∅; next_object := 0; shared_states := ∅; next_state := 0;
     pending := []; trace := [] |}.

(** A world in which the two requested names are alive at address 0. *)
Definition world_with_names : world :=
  {| stack := {[ 0 := obj_names ["a"; "b"] ]}; next_object := 1;
     shared_states := ∅; next_state := 0; pending := []; trace := [] |}.

End ParameterClient.

(* ====================================================================== *)
(** ** LoanedMessage: the objects a program can hold *)
(* ====================================================================== *)

Module LoanedMessageLifecycle.
Import LoanedMessage.

Definition publisher_is_null : string :=
  "Can't deallocate message memory. Publisher instance is NULL".
Definition deallocate_failed : string :=
  "rcl_deallocate_loaned_message failed: %s".

Definition errors (tr : list event) : list string :=
  omap (fun e => match e with RCLCPP_ERROR _ msg => Some msg | _ => None end) tr.

Definition resets (tr : list event) : list event :=
  List.filter (fun e => match e with ev_rcl_reset_error => true | _ => false end) tr.

(** The release calls that carry memory, not a null pointer. *)
Definition memory_releases (tr : list event) : list (path * pointer) :=
  filter (fun r => is_null (snd r) = false) (releases tr).

Section WithMessage.

Context {MessageT : Type}.
Variable sizeof_MessageT : Z.
Variable MessageT_init : MessageT.
Variable rcl : Middleware.

(** A write through the reference [get()] returns. *)
Definition LoanedMessage_write (m : @LoanedMessage MessageT) (v : MessageT)
    : @LoanedMessage MessageT :=
  {| pub_ := pub_ m;
     message_ := match message_ m with
                 | Some (p, _) => Some (p, v)
                 | None => None
                 end;
     message_allocator_ := message_allocator_ m |}.

(** What the public interface can produce: a constructed object, one
    written through [get()], and both sides of a move. *)
Inductive reachable : @LoanedMessage MessageT -> Prop :=
| reachable_ctor pub allocator tr m :
    LoanedMessage_ctor sizeof_MessageT MessageT_init rcl pub allocator = (tr, inr m) ->
    reachable m
| reachable_write m v :
    reachable m -> is_valid m = true -> reachable (LoanedMessage_write m v)
| reachable_moved_to m :
    reachable m -> reachable (fst (LoanedMessage_move m))
| reachable_moved_from m :
    reachable m -> reachable (snd (LoanedMessage_move m)).

(** [n] moves in a row, each out of the object the previous one built: the
    last holder and the moved-from objects left on the way, oldest first. *)
Fixpoint move_chain (n : nat) (m : @LoanedMessage MessageT)
    : @LoanedMessage MessageT * list (@LoanedMessage MessageT) :=
  match n with
  | 0 => (m, [])
  | S n' =>
      let '(dst, src) := LoanedMessage_move m in
      let '(holder, shells) := move_chain n' dst in
      (holder, src :: shells)
  end.

(** The destructors of a list of objects, one after the other. *)
Definition destroy_all (ms : list (@LoanedMessage MessageT)) : list event :=
  ms ≫= LoanedMessage_dtor rcl.

(** One construction after the other, whatever each one's outcome. *)
Definition construct_all (args : list (option PublisherBase * MessageAllocator))
    : list event :=
  args ≫= (fun a => fst (LoanedMessage_ctor sizeof_MessageT MessageT_init rcl
                           (fst a) (snd a))).

(** The constructions that take the allocator's path. *)
Definition cannot_loan_count (args : list (option PublisherBase * MessageAllocator))
    : nat :=
  length (List.filter (fun a => match fst a with
                                | Some pb => negb (can_loan_messages pb)
                                | None => false
                                end) args).

End WithMessage.

End LoanedMessageLifecycle.

(* ====================================================================== *)
(** ** QOSEventHandler: construction, repeated execution, destruction *)
(* ====================================================================== *)

Module QOSEventLifecycle.
Import QOSEvent.

(** What [rclcpp::exceptions::throw_from_rcl_error(ret, prefix)] throws; the
    exception classes live in exceptions.hpp. *)
Inductive exception :=
| rcl_error (ret : rcl_ret_t) (prefix : string).

Inductive event :=
| ev_init_func (ret : rcl_ret_t)
| ev_rcl_event_fini (ret : rcl_ret_t)
| ev_log_error (name msg : string)
| ev_rcl_reset_error.

Definition is_fini (e : event) : bool :=
  match e with ev_rcl_event_fini _ => true | _ => false end.

Definition is_init (e : event) : bool :=
  match e with ev_init_func _ => true | _ => false end.

(** How many of a list of return codes are [RCL_RET_OK], how many are not. *)
Definition succeeded (codes : list rcl_ret_t) : nat :=
  length (List.filter rcl_ret_ok codes).

Definition failed (codes : list rcl_ret_t) : nat :=
  length (List.filter (fun r => negb (rcl_ret_ok r)) codes).

Section WithEvent.

Context {rcl_event_t EventCallbackInfoT : Type}.

Variable rcl_get_zero_initialized_event : rcl_event_t.
Variable rcl_event_fini : rcl_event_t -> rcl_ret_t.
Variable rcl_take_event : rcl_event_t -> rcl_ret_t * EventCallbackInfoT * rcl_event_t.

(** [~QOSEventHandlerBase()] *)
Definition QOSEventHandlerBase_dtor (h : @QOSEventHandler rcl_event_t) : list event :=
  let ret := rcl_event_fini (event_handle_ h) in
  if rcl_ret_ok ret then
    [ev_rcl_event_fini ret]
  else
    [ev_rcl_event_fini ret;
     ev_log_error "rclcpp" "Error in destruction of rcl event handle: %s";
     ev_rcl_reset_error].

(** [QOSEventHandler(callback, init_func, parent_handle, event_type)].
    [init_func] stands for the call with the parent handle and the event
    type bound; the object lives at [this], and [index] is whatever the
    member [wait_set_event_index_], which no constructor sets, happens to
    hold.  A throw from the body unwinds the base class, whose construction
    was complete: its destructor runs on the handle as [init_func] left
    it. *)
Definition QOSEventHandler_ctor (this : pointer) (index : nat) (callback : nat)
    (init_func : rcl_event_t -> rcl_ret_t * rcl_event_t)
    : list event * (exception + @QOSEventHandler rcl_event_t) :=
  let '(ret, handle) := init_func rcl_get_zero_initialized_event in
  let h := {| event_handle_ := handle;
              event_handle_address := this;
              wait_set_event_index_ := index;
              event_callback_ := callback |} in
  if rcl_ret_ok ret then
    ([ev_init_func ret], inr h)
  else
    (ev_init_func ret :: QOSEventHandlerBase_dtor h,
     inl (rcl_error ret "could not create event")).

(** [execute()] called [n] times in a row. *)
Fixpoint execute_n (n : nat) (h : @QOSEventHandler rcl_event_t)
    : list (QOSEvent.event EventCallbackInfoT) * @QOSEventHandler rcl_event_t :=
  match n with
  | 0 => ([], h)
  | S n' =>
      let '(tr, h') := execute rcl_take_event h in
      let '(tr', h'') := execute_n n' h' in
      (tr ++ tr', h'')
  end.

(** The return codes of [n] takes in a row from a handle. *)
Fixpoint take_codes (n : nat) (handle : rcl_event_t) : list rcl_ret_t :=
  match n with
  | 0 => []
  | S n' =>
      let '(ret, _, handle') := rcl_take_event handle in
      ret :: take_codes n' handle'
  end.

(** The handle after [n] takes. *)
Fixpoint take_n (n : nat) (handle : rcl_event_t) : rcl_event_t :=
  match n with
  | 0 => handle
  | S n' => take_n n' (snd (rcl_take_event handle))
  end.

(** A whole life: construction, then, if it succeeded, [n] executions and
    the destruction.  The first trace is that of the handle's creation and
    finalisation, the second that of the executions. *)
Definition lifecycle (this : pointer) (index : nat) (callback : nat)
    (init_func : rcl_event_t -> rcl_ret_t * rcl_event_t) (n : nat)
    : list event * list (QOSEvent.event EventCallbackInfoT) :=
  match QOSEventHandler_ctor this index callback init_func with
  | (tr, inl _) => (tr, [])
  | (tr, inr h) =>
      let '(executed, h') := execute_n n h in
      (tr ++ QOSEventHandlerBase_dtor h', executed)
  end.

End WithEvent.

End QOSEventLifecycle.

(* ====================================================================== *)
(** ** SyncParametersClient *)
(* ====================================================================== *)

Module SyncParameterClient.
Import ParameterClient.

(** [rclcpp::executor::Executor::SharedPtr], by identity. *)
Record Executor := {
  executor_id : nat
}.

Record SyncParametersClient := {
  executor_ : Executor;
  sync_node_ : Node;
  async_parameters_client_ : AsyncParametersClient
}.

(** [SyncParametersClient(node)]: [make_shared] gives the new executor. *)
Definition SyncParametersClient_ctor (new_executor : Executor) (node : Node)
    : SyncParametersClient :=
  {| executor_ := new_executor;
     sync_node_ := node;
     async_parameters_client_ := AsyncParametersClient_ctor node "" |}.

(** [SyncParametersClient(executor, node)] *)
Definition SyncParametersClient_ctor_executor (executor : Executor) (node : Node)
    : SyncParametersClient :=
  {| executor_ := executor;
     sync_node_ := node;
     async_parameters_client_ := AsyncParametersClient_ctor node "" |}.

(** What [future.get()] comes to: the value, the exception a broken promise
    left, or a wait on a state nothing has made ready. *)
Inductive get_outcome :=
| got (v : result)
| future_error_broken_promise
| waits.

Definition future_get (future : nat) : M get_outcome :=
  fun w => match shared_states w !! future with
           | Some (ready v) => inr (got v, w)
           | Some broken_promise => inr (future_error_broken_promise, w)
           | _ => inr (waits, w)
           end.

Section WithExecutor.

(** [rclcpp::executors::spin_node_until_future_complete(executor, node, f)]
    lives in executors.hpp: here it is any computation over the world. *)
Variable spin_node_until_future_complete : Executor -> Node -> nat -> M unit.

Definition sync_get_parameters (c : SyncParametersClient)
    (parameter_names : list string) : M get_outcome :=
  do f <- get_parameters (async_parameters_client_ c) parameter_names None;
  spin_node_until_future_complete (executor_ c) (sync_node_ c) f ;;
  future_get f.

Definition sync_get_parameter_types (c : SyncParametersClient)
    (parameter_names : list string) : M get_outcome :=
  do f <- get_parameter_types (async_parameters_client_ c) parameter_names None;
  spin_node_until_future_complete (executor_ c) (sync_node_ c) f ;;
  future_get f.

Definition sync_set_parameters (c : SyncParametersClient)
    (parameters : list ParameterVariant) : M get_outcome :=
  do f <- set_parameters (async_parameters_client_ c) parameters None;
  spin_node_until_future_complete (executor_ c) (sync_node_ c) f ;;
  future_get f.

Definition sync_set_parameters_atomically (c : SyncParametersClient)
    (parameters : list ParameterVariant) : M get_outcome :=
  do f <- set_parameters_atomically (async_parameters_client_ c) parameters None;
  spin_node_until_future_complete (executor_ c) (sync_node_ c) f ;;
  future_get f.

Definition sync_list_parameters (c : SyncParametersClient)
    (parameter_prefixes : list string) (depth : Z) : M get_outcome :=
  do f <- list_parameters (async_parameters_client_ c) parameter_prefixes depth None;
  spin_node_until_future_complete (executor_ c) (sync_node_ c) f ;;
  future_get f.

(** A spin that returns leaves a broken promise broken: nothing can set a
    value once the promise is gone. *)
Definition keeps_broken_promises : Prop :=
  forall e n f w w',
    shared_states w !! f = Some broken_promise ->
    spin_node_until_future_complete e n f w = inr (tt, w') ->
    shared_states w' !! f = Some broken_promise.

End WithExecutor.

(** An executor with nothing to do: the spin returns at once. *)
Definition spin_returns : Executor -> Node -> nat -> M unit :=
  fun _ _ _ => ret tt.

End SyncParameterClient.

(* ====================================================================== *)
(** ** AsyncParametersClient: services and completion with live captures *)
(* ====================================================================== *)

Module ParameterClientCompletion.
Import ParameterClient.



(** The world after a continuation resolved the promise of state [s] with
    [v], with [callback] and a future handle on state [s']. *)
Definition resolved (w : world) (s : nat) (v : result) (callback : option nat)
    (s' : nat) : world :=
  {| stack := stack w;
     next_object := next_object w;
     shared_states := <[s := ready v]> (shared_states w);
     next_state := next_state w;
     pending := pending w;
     trace := trace w ++ match callback with
                         | Some g => [ev_user_callback g s']
                         | None => []
                         end |}.

(** The value a continuation passes on from the response it accepts; the
    names join of [get_parameters] is not among these. *)
Definition passed_on (resp : response) : option result :=
  match resp with
  | GetParameters_Response _ => None
  | GetParameterTypes_Response pts => Some (parameter_types pts)
  | SetParameters_Response results => Some (set_parameters_results results)
  | SetParametersAtomically_Response r => Some (set_parameters_result r)
  | ListParameters_Response r => Some (list_parameters_result r)
  end.

(** A world with a promise, a future handle and a non-empty callback alive,
    on a shared state that waits for its value. *)
Definition world_live : world :=
  {| stack := {[ 0 := obj_callback (Some 5); 1 := obj_promise 0;
                 2 := obj_shared_future 0 ]};
     next_object := 3;
     shared_states := {[ 0 := not_ready ]};
     next_state := 1; pending := []; trace := [] |}.

End ParameterClientCompletion.

(* ====================================================================== *)
(** * Properties of LoanedMessage *)
(* ====================================================================== *)

Module LoanedMessageProofs.
Import LoanedMessage.

Section Facts.

Context {MessageT : Type}.
Variable sizeof_MessageT : Z.
Variable MessageT_init : MessageT.
Variable rcl : Middleware.

Local Abbreviation ctor := (LoanedMessage_ctor sizeof_MessageT MessageT_init rcl).
Local Abbreviation dtor := (LoanedMessage_dtor rcl).
Local Abbreviation memory_of := (allocate_message_memory sizeof_MessageT rcl).
Local Abbreviation message := (@LoanedMessage MessageT).

Lemma acquisitions_allocate pb allocator :
  acquisitions (fst (memory_of pb allocator))
  = [(path_of pb, snd (memory_of pb allocator))].
Proof.
  unfold allocate_message_memory, path_of.
  destruct (can_loan_messages pb); reflexivity.
Qed.

Lemma warnings_allocate pb allocator :
  warnings (fst (memory_of pb allocator))
  = if can_loan_messages pb then [] else [cannot_loan].
Proof.
  unfold allocate_message_memory.
  destruct (can_loan_messages pb); reflexivity.
Qed.

(** The destructor of an object with a publisher makes one release call, on
    the path the publisher's capability selects, with whatever the unique
    pointer held. *)
Lemma releases_dtor (m : message) pb :
  pub_ m = Some pb ->
  releases (dtor m) = [(path_of pb, release (message_ m))].
Proof.
  intros Hpub.
  unfold LoanedMessage_dtor, LoanedMessage_dtor_body, path_of.
  rewrite Hpub.
  destruct (can_loan_messages pb); [|reflexivity].
  destruct (rcl_ret_ok _); reflexivity.
Qed.

Lemma ctor_inversion pub allocator tr (m : message) :
  ctor pub allocator = (tr, inr m) ->
  exists pb,
    pub = Some pb
    /\ tr = fst (memory_of pb allocator)
    /\ is_null (snd (memory_of pb allocator)) = false
    /\ m = {| pub_ := Some pb;
              message_ := Some (snd (memory_of pb allocator), MessageT_init);
              message_allocator_ := allocator |}.
Proof.
  unfold LoanedMessage_ctor.
  destruct pub as [pb|]; [|discriminate].
  destruct (memory_of pb allocator) as [tr' mem] eqn:E.
  destruct (is_null mem) eqn:Hnull; [discriminate|].
  intros [= <- <-]. exists pb. rewrite ?E. simpl. repeat split; try reflexivity; exact Hnull.
Qed.

(** C4. A message that was constructed acquired its memory once, from the
    pool when the publisher can loan and from the allocator (with the
    warning) when it cannot; destroying it, or the object it was moved
    into, releases that same memory once, through the same path. *)
Theorem release_path_is_acquire_path pub allocator tr (m : message) :
  ctor pub allocator = (tr, inr m) ->
  exists pb mem,
    pub = Some pb
    /\ is_null mem = false
    /\ acquisitions tr = [(path_of pb, mem)]
    /\ warnings tr = (if can_loan_messages pb then [] else [cannot_loan])
    /\ releases (dtor m) = [(path_of pb, mem)]
    /\ releases (dtor (fst (LoanedMessage_move m))) = [(path_of pb, mem)].
Proof.
  intros H. apply ctor_inversion in H as (pb & -> & -> & Hnull & ->).
  exists pb, (snd (memory_of pb allocator)).
  split; [reflexivity|]. split; [exact Hnull|].
  split; [apply acquisitions_allocate|].
  split; [apply warnings_allocate|].
  split; apply releases_dtor; reflexivity.
Qed.

(** C5. Moving a valid message leaves the source invalid and the
    destination valid with the original pointer and contents; but the
    destructor of the moved-from source still finds its publisher, and
    calls the release path of that publisher with a null pointer. *)
Theorem moved_from_dtor_still_releases (m : message) pb :
  pub_ m = Some pb ->
  is_valid m = true ->
  is_valid (snd (LoanedMessage_move m)) = false
  /\ is_valid (fst (LoanedMessage_move m)) = true
  /\ message_ (fst (LoanedMessage_move m)) = message_ m
  /\ get (fst (LoanedMessage_move m)) = get m
  /\ releases (dtor (snd (LoanedMessage_move m))) = [(path_of pb, nullptr)].
Proof.
  intros Hpub Hvalid. repeat split; try assumption; try reflexivity.
  rewrite (releases_dtor _ pb); [reflexivity | exact Hpub].
Qed.


(** C10. [get()] has a result exactly on a valid message: it is undefined
    on a moved-from source and on what the destructor body leaves. *)
Theorem get_needs_is_valid (m : message) :
  (is_Some (get m) <-> is_valid m = true)
  /\ (get m = None <-> is_valid m = false)
  /\ get (snd (LoanedMessage_move m)) = None
  /\ (pub_ m <> None -> get (snd (LoanedMessage_dtor_body rcl m)) = None).
Proof.
  unfold get, is_valid.
  split; [|split; [|split]].
  - destruct (message_ m) as [[p v]|]; simpl.
    + split; [reflexivity | intros _; eexists; reflexivity].
    + split; [intros [x Hx]; discriminate | discriminate].
  - destruct (message_ m) as [[p v]|]; simpl; split; (discriminate || reflexivity).
  - reflexivity.
  - intros Hpub. unfold LoanedMessage_dtor_body.
    destruct (pub_ m) as [pb|]; [|contradiction].
    destruct (can_loan_messages pb); [destruct (rcl_ret_ok _)|]; reflexivity.
Qed.

End Facts.

Lemma release_path_is_acquire_path_witness :
  exists pb mem,
    Some plain_publisher = Some pb
    /\ is_null mem = false
    /\ acquisitions
         [RCLCPP_WARN "rclcpp" cannot_loan; ev_allocate 1 1 8192%Z]
       = [(path_of pb, mem)]
    /\ warnings [RCLCPP_WARN "rclcpp" cannot_loan; ev_allocate 1 1 8192%Z]
       = (if can_loan_messages pb then [] else [cannot_loan])
    /\ releases (LoanedMessage_dtor middleware0
         {| pub_ := Some plain_publisher; message_ := Some (8192%Z, 0%Z);
            message_allocator_ := allocator0 |}) = [(path_of pb, mem)]
    /\ releases (LoanedMessage_dtor middleware0
         (fst (LoanedMessage_move
            {| pub_ := Some plain_publisher; message_ := Some (8192%Z, 0%Z);
               message_allocator_ := allocator0 |}))) = [(path_of pb, mem)].
Proof.
  apply (release_path_is_acquire_path 64%Z 0%Z middleware0
           (Some plain_publisher) allocator0).
  reflexivity.
Defined.

Lemma moved_from_dtor_still_releases_witness :
  is_valid (snd (LoanedMessage_move loaned0)) = false
  /\ is_valid (fst (LoanedMessage_move loaned0)) = true
  /\ message_ (fst (LoanedMessage_move loaned0)) = message_ loaned0
  /\ get (fst (LoanedMessage_move loaned0)) = get loaned0
  /\ releases (LoanedMessage_dtor middleware0 (snd (LoanedMessage_move loaned0)))
     = [(Pool, nullptr)].
Proof.
  apply (moved_from_dtor_still_releases middleware0 loaned0 loaning_publisher);
    reflexivity.
Defined.

(** The trace of that destructor: the null pointer goes back to the
    middleware, which refuses it, and the error is logged. *)
Example moved_from_dtor_trace :
  LoanedMessage_dtor middleware0 (snd (LoanedMessage_move loaned0))
  = [ev_rcl_deallocate_loaned_message 7 nullptr (RCL_RET_ERROR 11);
     RCLCPP_ERROR "LoanedMessage" "rcl_deallocate_loaned_message failed: %s";
     ev_rcl_reset_error].
Proof. reflexivity. Qed.

End LoanedMessageProofs.

(* ====================================================================== *)
(** * Properties of the QoS event handler *)
(* ====================================================================== *)

Module QOSEventProofs.
Import QOSEvent.

Section Facts.

Context {rcl_event_t EventCallbackInfoT : Type}.
Variable rcl_take_event : rcl_event_t -> rcl_ret_t * EventCallbackInfoT * rcl_event_t.

Local Abbreviation handler := (@QOSEventHandler rcl_event_t).
Local Abbreviation run := (execute rcl_take_event).

Lemma is_ready_true_iff (wait_set : rcl_wait_set_t) (h : handler) :
  is_ready wait_set h = Some true
  <-> events wait_set !! wait_set_event_index_ h = Some (event_handle_address h).
Proof.
  unfold is_ready.
  destruct (events wait_set !! wait_set_event_index_ h) as [slot|]; [|split; discriminate].
  split.
  - intros [= H]. apply Z.eqb_eq in H. rewrite H. reflexivity.
  - intros [= ->]. rewrite Z.eqb_refl. reflexivity.
Qed.

(** C7. [is_ready] answers true exactly when the slot at the handler's own
    index holds the address of its own event handle; its answer is a
    function of that one slot; and a slot that holds another handle's
    address, at the own index or anywhere else, never makes it true. *)
Theorem is_ready_own_slot (wait_set : rcl_wait_set_t) (h : handler) :
  (is_ready wait_set h = Some true
   <-> events wait_set !! wait_set_event_index_ h = Some (event_handle_address h))
  /\ (forall wait_set' : rcl_wait_set_t,
        events wait_set' !! wait_set_event_index_ h
        = events wait_set !! wait_set_event_index_ h ->
        is_ready wait_set' h = is_ready wait_set h)
  /\ (forall other : handler,
        event_handle_address other <> event_handle_address h ->
        events wait_set !! wait_set_event_index_ h = Some (event_handle_address other) ->
        is_ready wait_set h = Some false)
  /\ (forall j : nat,
        j <> wait_set_event_index_ h ->
        events wait_set !! j = Some (event_handle_address h) ->
        events wait_set !! wait_set_event_index_ h <> Some (event_handle_address h) ->
        is_ready wait_set h <> Some true).
Proof.
  split; [apply is_ready_true_iff|].
  split; [|split].
  - intros wait_set' Heq. unfold is_ready. rewrite Heq. reflexivity.
  - intros other Hne Hslot. unfold is_ready. rewrite Hslot.
    f_equal. apply Z.eqb_neq. exact Hne.
  - intros j _ _ Hown Hready. apply Hown, is_ready_true_iff, Hready.
Qed.

(** C8. [execute] takes from the native handle once.  When the take
    succeeds the callback runs once, on the record the take filled, and
    nothing is logged; when it fails the failure is logged once and the
    callback does not run.  Either way the handle is left as that one take
    left it, and [execute] returns. *)
Theorem execute_takes_once (h : handler) :
  let ret := fst (fst (rcl_take_event (event_handle_ h))) in
  let callback_info := snd (fst (rcl_take_event (event_handle_ h))) in
  let handle' := snd (rcl_take_event (event_handle_ h)) in
  event_handle_ (snd (run h)) = handle'
  /\ event_handle_address (snd (run h)) = event_handle_address h
  /\ wait_set_event_index_ (snd (run h)) = wait_set_event_index_ h
  /\ event_callback_ (snd (run h)) = event_callback_ h
  /\ filter (fun e => is_take e = true) (fst (run h)) = [ev_rcl_take_event ret]
  /\ (if rcl_ret_ok ret then
        fst (run h)
        = [ev_rcl_take_event ret; ev_event_callback (event_callback_ h) callback_info]
      else
        filter (fun e => is_callback e = true) (fst (run h)) = []
        /\ fst (run h)
           = [ev_rcl_take_event ret;
              RCUTILS_LOG_ERROR_NAMED "rclcpp" "Couldn't take event info: %s"]).
Proof.
  unfold execute.
  destruct (rcl_take_event (event_handle_ h)) as [[ret info] handle'].
  simpl. destruct (rcl_ret_ok ret); simpl; repeat split; reflexivity.
Qed.

(** C9. [get_number_of_ready_events] is 1 for every handler, before and
    after any number of executions, whatever the native handle holds. *)
Theorem get_number_of_ready_events_is_1 (h : handler) (n : nat) :
  get_number_of_ready_events h = 1%N
  /\ get_number_of_ready_events (Nat.iter n (fun x => snd (run x)) h) = 1%N.
Proof. split; reflexivity. Qed.

End Facts.

End QOSEventProofs.

(* ====================================================================== *)
(** * Properties of the parameter client *)
(* ====================================================================== *)

Module ParameterClientProofs.
Import ParameterClient.

(** ** Pointer arithmetic of the index expression *)

Section PointerArithmetic.
Local Open Scope Z_scope.

Lemma to_ptrdiff_t_cases d :
  - 2 ^ 64 < d < 2 ^ 64 ->
  (- 2 ^ 63 <= d < 2 ^ 63 /\ to_ptrdiff_t d = d)
  \/ (2 ^ 63 <= d /\ to_ptrdiff_t d = d - 2 ^ 64)
  \/ (d < - 2 ^ 63 /\ to_ptrdiff_t d = d + 2 ^ 64).
Proof.
  intros Hd. unfold to_ptrdiff_t.
  destruct (Z_lt_le_dec d (- 2 ^ 63)) as [Hlo|Hlo];
    [right; right | destruct (Z_lt_le_dec d (2 ^ 63)) as [Hhi|Hhi]; [left | right; left]].
  - split; [exact Hlo|].
    replace (d + 2 ^ 63) with (d + 2 ^ 63 + 2 ^ 64 + (-1) * 2 ^ 64) by ring.
    rewrite Z_mod_plus_full, Z.mod_small; lia.
  - split; [lia|]. rewrite Z.mod_small; lia.
  - split; [exact Hhi|].
    replace (d + 2 ^ 63) with (d + 2 ^ 63 - 2 ^ 64 + 1 * 2 ^ 64) by ring.
    rewrite Z_mod_plus_full, Z.mod_small; lia.
Qed.

Lemma quot_at_least x size n :
  0 < size -> 0 <= x -> n * size <= x -> n <= Z.quot x size.
Proof.
  intros Hsize Hx Hn. rewrite Z.quot_div_nonneg by lia.
  apply Z.div_le_lower_bound; lia.
Qed.

Lemma quot_nonneg_bounds x size :
  0 < size -> 0 <= x -> 0 <= Z.quot x size /\ Z.quot x size * size <= x.
Proof.
  intros Hsize Hx. rewrite Z.quot_div_nonneg by lia.
  split; [apply Z.div_pos; lia|]. rewrite Z.mul_comm. apply Z.mul_div_le. lia.
Qed.

Lemma quot_negative_bounds x size :
  0 < size -> x <= - size ->
  Z.quot x size <= -1 /\ (- Z.quot x size) * size <= - x.
Proof.
  intros Hsize Hx.
  replace x with (- (- x)) by ring. rewrite Z.quot_opp_l by lia.
  destruct (quot_nonneg_bounds (- x) size) as [H0 H1]; [lia|lia|].
  pose proof (quot_at_least (- x) size 1 Hsize) as H2.
  split; lia.
Qed.

(** An object of [size] bytes at [a] that does not overlap an array of [n]
    such objects at [base]: as an index into that array, [a - base] is past
    the end, whichever side [a] lies on and however the difference wraps. *)
Lemma index_past_the_end size base a n :
  0 < size -> 0 <= base -> base + n * size <= 2 ^ 64 ->
  0 <= a -> a + size <= 2 ^ 64 ->
  (a + size <= base \/ base + n * size <= a) ->
  0 < n ->
  n <= to_size_t (ptr_diff a base size).
Proof.
  intros Hsize Hbase Hend Ha Haend Hdisj Hn.
  assert (size <= n * size) as Hnsize by nia.
  unfold ptr_diff, to_size_t.
  destruct (to_ptrdiff_t_cases (a - base)) as [[Hr ->]|[[Hr ->]|[Hr ->]]]; [lia| | |].
  - destruct Hdisj as [Hbelow|Habove].
    + destruct (quot_negative_bounds (a - base) size) as [H1 H2]; [lia|lia|].
      set (i := Z.quot (a - base) size) in *.
      assert (- 2 ^ 64 <= i) by nia.
      replace i with (i + 2 ^ 64 + (-1) * 2 ^ 64) by ring.
      rewrite Z_mod_plus_full, Z.mod_small by lia. nia.
    + pose proof (quot_at_least (a - base) size n Hsize) as H1.
      destruct (quot_nonneg_bounds (a - base) size) as [H2 H3]; [lia|lia|].
      set (i := Z.quot (a - base) size) in *.
      rewrite Z.mod_small; [lia|]. split; [lia|]. nia.
  - destruct (quot_negative_bounds (a - base - 2 ^ 64) size) as [H1 H2]; [lia|lia|].
    set (i := Z.quot (a - base - 2 ^ 64) size) in *.
    assert (- 2 ^ 64 <= i) by nia.
    replace i with (i + 2 ^ 64 + (-1) * 2 ^ 64) by ring.
    rewrite Z_mod_plus_full, Z.mod_small by lia. nia.
  - pose proof (quot_at_least (a - base + 2 ^ 64) size n Hsize) as H1.
    destruct (quot_nonneg_bounds (a - base + 2 ^ 64) size) as [H2 H3]; [lia|lia|].
    set (i := Z.quot (a - base + 2 ^ 64) size) in *.
    rewrite Z.mod_small; [lia|]. split; [lia|]. nia.
Qed.

Lemma to_size_t_nonneg i : 0 <= to_size_t i.
Proof. unfold to_size_t. apply Z.mod_pos_bound. lia. Qed.

End PointerArithmetic.

(** The index the inner lambda computes in any of its calls names no
    element of [names]. *)
Lemma pvalue_index_past_names (L : layout) (names : list string) (n k : nat) :
  layout_ok L n = true ->
  length names = n ->
  k < n ->
  vector_at names (pvalue_index L k) = None.
Proof.
  unfold layout_ok. intros Hok Hlen Hk.
  apply andb_prop in Hok as [Hok Hall].
  apply andb_prop in Hok as [Hok Hend].
  apply andb_prop in Hok as [Hsize Hbase].
  rewrite forallb_forall in Hall.
  specialize (Hall k). rewrite in_seq in Hall.
  specialize (Hall ltac:(lia)).
  apply andb_prop in Hall as [Hall Hdisj].
  apply andb_prop in Hall as [Ha Haend].
  apply orb_prop in Hdisj.
  apply Z.ltb_lt in Hsize. apply Z.leb_le in Hbase, Hend, Ha, Haend.
  unfold vector_at, pvalue_index.
  apply lookup_ge_None.
  pose proof (index_past_the_end (sizeof_ParameterValue L) (pvalues_data L)
                (pvalue_address L k) (Z.of_nat n) Hsize Hbase Hend Ha Haend) as Hidx.
  assert (Z.of_nat n
          <= to_size_t (ptr_diff (pvalue_address L k) (pvalues_data L)
                          (sizeof_ParameterValue L)))%Z as Hle.
  { apply Hidx; [|lia].
    destruct Hdisj as [H|H]; apply Z.leb_le in H; [left|right]; exact H. }
  rewrite Hlen. lia.
Qed.

Lemma transform_pvalues_nil L names k w :
  transform_pvalues L names k [] w = inr ([], w).
Proof. reflexivity. Qed.

Lemma transform_pvalues_cons_out_of_range L names_ref names k pvalue rest w :
  stack w !! names_ref = Some (obj_names names) ->
  vector_at names (pvalue_index L k) = None ->
  transform_pvalues L names_ref k (pvalue :: rest) w
  = inl (out_of_range (pvalue_index L k)).
Proof.
  intros Hlive Hidx.
  change (transform_pvalues L names_ref k (pvalue :: rest) w)
    with (bind (pvalue_lambda L names_ref k pvalue)
            (fun v => bind (transform_pvalues L names_ref (S k) rest)
                        (fun vs => ret (v :: vs))) w).
  cbv beta zeta delta [pvalue_lambda bind read_names].
  rewrite Hlive, Hidx. reflexivity.
Qed.

(** C1. With the requested names still alive, a response of as many values
    as names (one at least), and the lambda's by-value parameter anywhere
    outside the vector it was copied from: every index the join computes is
    past the end of [names], so the join stops at the first value with an
    out-of-range read and never produces the positional pairing. *)
Theorem get_parameters_join_out_of_range (L : layout) (names_ref : nat)
    (names : list string) (pvalues : list ParameterValue) (w : world) :
  layout_ok L (length pvalues) = true ->
  length names = length pvalues ->
  pvalues <> [] ->
  stack w !! names_ref = Some (obj_names names) ->
  (forall k, k < length pvalues -> vector_at names (pvalue_index L k) = None)
  /\ transform_pvalues L names_ref 0 pvalues w = inl (out_of_range (pvalue_index L 0))
  /\ transform_pvalues L names_ref 0 pvalues w
     <> inr (spec_positional_join names pvalues, w).
Proof.
  intros Hok Hlen Hne Hlive.
  assert (forall k, k < length pvalues -> vector_at names (pvalue_index L k) = None)
    as Hidx.
  { intros k Hk. apply (pvalue_index_past_names L names (length pvalues) k); assumption. }
  split; [exact Hidx|].
  destruct pvalues as [|pvalue rest]; [contradiction|].
  rewrite (transform_pvalues_cons_out_of_range L names_ref names 0 pvalue rest w Hlive);
    [|apply Hidx; simpl; lia].
  split; [reflexivity | discriminate].
Qed.

(** ** The calls, run symbolically *)

Ltac map_simpl :=
  repeat (rewrite lookup_insert_eq || rewrite lookup_delete_eq
          || (rewrite lookup_insert_ne by lia)
          || (rewrite lookup_delete_ne by lia)).

Ltac run_call :=
  cbv beta iota zeta delta
    [bind ret raise alloca new_shared_state destroy async_send_request
     stack next_object shared_states next_state pending trace].

(** After a call the promise's shared state is abandoned. *)
Ltac abandon :=
  unfold abandon_state; repeat (progress (map_simpl; cbv beta iota)).

Ltac eexists_one :=
  match goal with |- exists _, _ => eexists end.

Ltac after_call :=
  split; [reflexivity|];
  split; [reflexivity|];
  split; [repeat constructor; map_simpl; reflexivity|];
  split; [abandon; reflexivity | reflexivity].

Lemma get_parameters_returns this client names callback w :
  get_parameters_client_ this = Some client ->
  exists future w' names_ref promise_result future_result callback_ref,
    get_parameters this names callback w = inr (future, w')
    /\ returned w (service_name client) (GetParameters_Request names)
         (get_parameters_lambda names_ref promise_result future_result callback_ref)
         future w'.
Proof.
  intros Hclient. unfold get_parameters, returned, captures_dead.
  rewrite Hclient. destruct w as [st no ss ns pe tr]. run_call.
  repeat eexists_one. after_call.
Qed.

Lemma get_parameter_types_returns this client parameter_names callback w :
  get_parameter_types_client_ this = Some client ->
  exists future w' promise_result future_result callback_ref,
    get_parameter_types this parameter_names callback w = inr (future, w')
    /\ returned w (service_name client) (GetParameterTypes_Request parameter_names)
         (get_parameter_types_lambda promise_result future_result callback_ref)
         future w'.
Proof.
  intros Hclient. unfold get_parameter_types, returned, captures_dead.
  rewrite Hclient. destruct w as [st no ss ns pe tr]. run_call.
  repeat eexists_one. after_call.
Qed.

Lemma set_parameters_returns this client parameters callback w :
  set_parameters_client_ this = Some client ->
  exists future w' promise_result future_result callback_ref,
    set_parameters this parameters callback w = inr (future, w')
    /\ returned w (service_name client)
         (SetParameters_Request (to_parameter <$> parameters))
         (set_parameters_lambda promise_result future_result callback_ref)
         future w'.
Proof.
  intros Hclient. unfold set_parameters, returned, captures_dead.
  rewrite Hclient. destruct w as [st no ss ns pe tr]. run_call.
  repeat eexists_one. after_call.
Qed.

Lemma list_parameters_returns this client parameter_prefixes depth callback w :
  list_parameters_client_ this = Some client ->
  exists future w' promise_result future_result callback_ref,
    list_parameters this parameter_prefixes depth callback w = inr (future, w')
    /\ returned w (service_name client)
         (ListParameters_Request parameter_prefixes depth)
         (list_parameters_lambda promise_result future_result callback_ref)
         future w'.
Proof.
  intros Hclient. unfold list_parameters, returned, captures_dead.
  rewrite Hclient. destruct w as [st no ss ns pe tr]. run_call.
  repeat eexists_one. after_call.
Qed.

Lemma set_parameters_atomically_null this parameters callback w :
  set_parameters_atomically_client_ this = None ->
  set_parameters_atomically this parameters callback w = inl null_dereference.
Proof.
  intros Hclient. unfold set_parameters_atomically.
  rewrite Hclient. destruct w as [st no ss ns pe tr]. run_call. reflexivity.
Qed.

(** ** Completion after the call has returned *)

Lemma resolve_dangling promise_result future_result callback v w :
  stack w !! promise_result = None ->
  resolve promise_result future_result callback v w
  = inl (dangling_reference promise_result).
Proof.
  intros Hdead. cbv beta delta [resolve set_value bind read_promise].
  rewrite Hdead. reflexivity.
Qed.

Lemma transform_pvalues_dangling L names k pvalue rest w :
  stack w !! names = None ->
  transform_pvalues L names k (pvalue :: rest) w = inl (dangling_reference names).
Proof.
  intros Hdead.
  change (transform_pvalues L names k (pvalue :: rest) w)
    with (bind (pvalue_lambda L names k pvalue)
            (fun v => bind (transform_pvalues L names (S k) rest)
                        (fun vs => ret (v :: vs))) w).
  cbv beta zeta delta [pvalue_lambda bind read_names].
  rewrite Hdead. reflexivity.
Qed.

(** A continuation whose captures are dead stops at its first access
    through one of them. *)
Lemma run_continuation_dangling L k resp w :
  captures_dead w k ->
  accepts k resp = true ->
  exists a, In a (captures k)
            /\ run_continuation L k resp w = inl (dangling_reference a).
Proof.
  unfold captures_dead. intros Hdead Hacc.
  destruct k as [n p f c|p f c|p f c|p f c|p f c]; cbn [captures] in Hdead;
    destruct resp as [values|pts|results|r|r];
    try discriminate Hacc; cbn [run_continuation captures].
  - inversion Hdead as [|? ? Hn Hrest]; subst.
    inversion Hrest as [|? ? Hp _]; subst.
    destruct values as [|pvalue rest].
    + exists p. split; [simpl; auto|].
      unfold bind. rewrite transform_pvalues_nil. apply resolve_dangling, Hp.
    + exists n. split; [simpl; auto|].
      unfold bind. rewrite transform_pvalues_dangling by exact Hn. reflexivity.
  - inversion Hdead as [|? ? Hp _]; subst.
    exists p. split; [simpl; auto | apply resolve_dangling, Hp].
  - inversion Hdead as [|? ? Hp _]; subst.
    exists p. split; [simpl; auto | apply resolve_dangling, Hp].
  - inversion Hdead as [|? ? Hp _]; subst.
    exists p. split; [simpl; auto | apply resolve_dangling, Hp].
  - inversion Hdead as [|? ? Hp _]; subst.
    exists p. split; [simpl; auto | apply resolve_dangling, Hp].
Qed.

(** The response to the request a call has just sent reaches a continuation
    whose captures died when the call returned. *)
Lemma handle_response_after_return L w service req k future w' resp :
  returned w service req k future w' ->
  accepts k resp = true ->
  exists a, In a (captures k)
            /\ handle_response L (length (pending w)) resp w'
               = inl (dangling_reference a).
Proof.
  intros (Hpending & Hdead & _ & _) Hacc.
  unfold handle_response. rewrite Hpending.
  rewrite lookup_app_r by lia. rewrite Nat.sub_diag. cbn [lookup list_lookup].
  apply run_continuation_dangling; assumption.
Qed.

(** ** The constructed client *)

Lemma ctor_get_parameters_client node remote :
  get_parameters_client_ (AsyncParametersClient_ctor node remote)
  = Some {| service_name :=
              remote_node_name_ (AsyncParametersClient_ctor node remote)
              +:+ "__get_parameters" |}.
Proof. reflexivity. Qed.

Lemma ctor_get_parameter_types_client node remote :
  get_parameter_types_client_ (AsyncParametersClient_ctor node remote)
  = Some {| service_name :=
              remote_node_name_ (AsyncParametersClient_ctor node remote)
              +:+ "__get_parameter_types" |}.
Proof. reflexivity. Qed.

Lemma ctor_set_parameters_client node remote :
  set_parameters_client_ (AsyncParametersClient_ctor node remote)
  = Some {| service_name :=
              remote_node_name_ (AsyncParametersClient_ctor node remote)
              +:+ "__set_parameters" |}.
Proof. reflexivity. Qed.

Lemma ctor_list_parameters_client node remote :
  list_parameters_client_ (AsyncParametersClient_ctor node remote)
  = Some {| service_name :=
              remote_node_name_ (AsyncParametersClient_ctor node remote)
              +:+ "__list_parameters" |}.
Proof. reflexivity. Qed.

(** C2. The constructor assigns the clients of get, get-types, set and
    list (and describe), and a call of one of these four sends its request
    to the service of that name.  It never assigns
    [set_parameters_atomically_client_]: on a freshly constructed object
    [set_parameters_atomically] calls through a null shared pointer. *)
Theorem atomically_client_never_assigned (node : Node) (remote : string)
    (names prefixes : list string) (depth : Z)
    (parameters : list ParameterVariant) (callback : option nat) (w : world) :
  let this := AsyncParametersClient_ctor node remote in
  set_parameters_atomically_client_ this = None
  /\ set_parameters_atomically this parameters callback w = inl null_dereference
  /\ (exists future w' k,
        get_parameters this names callback w = inr (future, w')
        /\ pending w' = pending w
             ++ [(remote_node_name_ this +:+ "__get_parameters",
                  GetParameters_Request names, k)])
  /\ (exists future w' k,
        get_parameter_types this names callback w = inr (future, w')
        /\ pending w' = pending w
             ++ [(remote_node_name_ this +:+ "__get_parameter_types",
                  GetParameterTypes_Request names, k)])
  /\ (exists future w' k,
        set_parameters this parameters callback w = inr (future, w')
        /\ pending w' = pending w
             ++ [(remote_node_name_ this +:+ "__set_parameters",
                  SetParameters_Request (to_parameter <$> parameters), k)])
  /\ (exists future w' k,
        list_parameters this prefixes depth callback w = inr (future, w')
        /\ pending w' = pending w
             ++ [(remote_node_name_ this +:+ "__list_parameters",
                  ListParameters_Request prefixes depth, k)]).
Proof.
  intros this.
  split; [reflexivity|].
  split; [apply set_parameters_atomically_null; reflexivity|].
  split; [|split; [|split]].
  - destruct (get_parameters_returns this _ names callback w
                (ctor_get_parameters_client node remote))
      as (future & w' & n & p & f & c & Hcall & Hpending & _).
    exists future, w'. eexists. split; [exact Hcall | exact Hpending].
  - destruct (get_parameter_types_returns this _ names callback w
                (ctor_get_parameter_types_client node remote))
      as (future & w' & p & f & c & Hcall & Hpending & _).
    exists future, w'. eexists. split; [exact Hcall | exact Hpending].
  - destruct (set_parameters_returns this _ parameters callback w
                (ctor_set_parameters_client node remote))
      as (future & w' & p & f & c & Hcall & Hpending & _).
    exists future, w'. eexists. split; [exact Hcall | exact Hpending].
  - destruct (list_parameters_returns this _ prefixes depth callback w
                (ctor_list_parameters_client node remote))
      as (future & w' & p & f & c & Hcall & Hpending & _).
    exists future, w'. eexists. split; [exact Hcall | exact Hpending].
Qed.

(** C3. When [get_parameters] or [set_parameters] returns, the request is
    pending with a continuation whose captured objects (the names, the
    promise, the future handle, the callback) have all been destroyed, and
    the returned future already holds [broken_promise].  When the response
    is dispatched, the continuation stops at its first access through a
    dangling reference; the promise is not resolved by it. *)
Theorem captures_destroyed_at_return (node : Node) (remote : string)
    (names : list string) (parameters : list ParameterVariant)
    (callback : option nat) (w : world) (L : layout)
    (values : list ParameterValue) (results : list SetParametersResult) :
  let this := AsyncParametersClient_ctor node remote in
  (exists future w' k,
     get_parameters this names callback w = inr (future, w')
     /\ returned w (remote_node_name_ this +:+ "__get_parameters")
          (GetParameters_Request names) k future w'
     /\ length (captures k) = 4
     /\ exists a, In a (captures k)
          /\ handle_response L (length (pending w))
               (GetParameters_Response values) w'
             = inl (dangling_reference a))
  /\ (exists future w' k,
     set_parameters this parameters callback w = inr (future, w')
     /\ returned w (remote_node_name_ this +:+ "__set_parameters")
          (SetParameters_Request (to_parameter <$> parameters)) k future w'
     /\ length (captures k) = 3
     /\ exists a, In a (captures k)
          /\ handle_response L (length (pending w))
               (SetParameters_Response results) w'
             = inl (dangling_reference a)).
Proof.
  intros this. split.
  - destruct (get_parameters_returns this _ names callback w
                (ctor_get_parameters_client node remote))
      as (future & w' & n & p & f & c & Hcall & Hret).
    exists future, w', (get_parameters_lambda n p f c).
    split; [exact Hcall|]. split; [exact Hret|]. split; [reflexivity|].
    eapply handle_response_after_return; [exact Hret | reflexivity].
  - destruct (set_parameters_returns this _ parameters callback w
                (ctor_set_parameters_client node remote))
      as (future & w' & p & f & c & Hcall & Hret).
    exists future, w', (set_parameters_lambda p f c).
    split; [exact Hcall|]. split; [exact Hret|]. split; [reflexivity|].
    eapply handle_response_after_return; [exact Hret | reflexivity].
Qed.

(** ** Concrete runs *)

Lemma get_parameters_join_out_of_range_witness :
  (forall k, k < 2 -> vector_at ["a"; "b"] (pvalue_index layout0 k) = None)
  /\ transform_pvalues layout0 0 0 [1%Z; 2%Z] world_with_names
     = inl (out_of_range (pvalue_index layout0 0))
  /\ transform_pvalues layout0 0 0 [1%Z; 2%Z] world_with_names
     <> inr (spec_positional_join ["a"; "b"] [1%Z; 2%Z], world_with_names).
Proof.
  apply (get_parameters_join_out_of_range layout0 0 ["a"; "b"] [1%Z; 2%Z]
           world_with_names).
  - reflexivity.
  - reflexivity.
  - discriminate.
  - apply lookup_singleton_eq.
Defined.

(** The index computed for both values of that response: the distance, in
    elements, from the vector to the stack slot of the copy. *)
Example pvalue_index_layout0 :
  pvalue_index layout0 0 = 4398046510809%Z
  /\ pvalue_index layout0 1 = 4398046510809%Z.
Proof. split; reflexivity. Qed.

(** With nothing requested and nothing returned the join is empty. *)
Example get_parameters_join_empty (L : layout) (names_ref : nat) (w : world) :
  transform_pvalues L names_ref 0 [] w = inr (spec_positional_join [] [], w).
Proof. reflexivity. Qed.

(** A node asks itself for ["a"; "b"] and the service answers [1; 2]: the
    future is broken as soon as the call returns, and the continuation stops
    at the dangling reference to [names] (address 0). *)
Example get_parameters_a_b :
  exists w',
    get_parameters (AsyncParametersClient_ctor {| get_name := "talker" |} "")
      ["a"; "b"] None world0 = inr (0, w')
    /\ pending w'
       = [("talker__get_parameters", GetParameters_Request ["a"; "b"],
           get_parameters_lambda 0 2 3 1)]
    /\ shared_states w' !! 0 = Some broken_promise
    /\ handle_response layout0 0 (GetParameters_Response [1%Z; 2%Z]) w'
       = inl (dangling_reference 0).
Proof.
  eexists. split; [vm_compute; reflexivity|].
  split; [reflexivity|]. split; vm_compute; reflexivity.
Qed.

(** On a freshly constructed client the atomic set stops at the null
    client, whatever is to be set. *)
Example set_parameters_atomically_fresh :
  set_parameters_atomically
    (AsyncParametersClient_ctor {| get_name := "talker" |} "") [] None world0
  = inl null_dereference.
Proof. reflexivity. Qed.

End ParameterClientProofs.

(* ====================================================================== *)
(** * LoanedMessage over its whole life *)
(* ====================================================================== *)

Module LoanedMessageLifecycleProofs.
Import LoanedMessage LoanedMessageLifecycle.

Section Facts.

Context {MessageT : Type}.
Variable sizeof_MessageT : Z.
Variable MessageT_init : MessageT.
Variable rcl : Middleware.

Local Abbreviation ctor := (LoanedMessage_ctor sizeof_MessageT MessageT_init rcl).
Local Abbreviation dtor := (LoanedMessage_dtor rcl).
Local Abbreviation message := (@LoanedMessage MessageT).
Local Abbreviation is_reachable := (reachable sizeof_MessageT MessageT_init rcl).

(** What every reachable object satisfies: it has a publisher, and a
    pointer it holds is not null. *)
Lemma reachable_has_publisher (m : message) :
  is_reachable m ->
  exists pb,
    pub_ m = Some pb
    /\ (forall p v, message_ m = Some (p, v) -> is_null p = false).
Proof.
  induction 1 as [pub allocator tr m Hctor
                 | m v _ (pb & Hpub & Hptr) _
                 | m _ (pb & Hpub & Hptr)
                 | m _ (pb & Hpub & Hptr)].
  - apply LoanedMessageProofs.ctor_inversion in Hctor as (pb & -> & -> & Hnull & ->).
    exists pb. split; [reflexivity|]. intros p v [= <- _]. exact Hnull.
  - exists pb. split; [exact Hpub|]. intros p w. simpl.
    destruct (message_ m) as [[q u]|]; [|discriminate].
    intros [= <- _]. apply (Hptr q u). reflexivity.
  - exists pb. split; [exact Hpub | exact Hptr].
  - exists pb. split; [exact Hpub | discriminate].
Qed.

Lemma errors_dtor (m : message) pb :
  pub_ m = Some pb ->
  errors (dtor m)
  = if can_loan_messages pb
       && negb (rcl_ret_ok (rcl_deallocate_loaned_message rcl
                              (get_publisher_handle pb) (release (message_ m))))
    then [deallocate_failed] else [].
Proof.
  intros Hpub. unfold LoanedMessage_dtor, LoanedMessage_dtor_body.
  rewrite Hpub.
  destruct (can_loan_messages pb); [|reflexivity].
  destruct (rcl_ret_ok _); reflexivity.
Qed.

Lemma resets_dtor (m : message) pb :
  pub_ m = Some pb ->
  resets (dtor m)
  = if can_loan_messages pb
       && negb (rcl_ret_ok (rcl_deallocate_loaned_message rcl
                              (get_publisher_handle pb) (release (message_ m))))
    then [ev_rcl_reset_error] else [].
Proof.
  intros Hpub. unfold LoanedMessage_dtor, LoanedMessage_dtor_body.
  rewrite Hpub.
  destruct (can_loan_messages pb); [|reflexivity].
  destruct (rcl_ret_ok _); reflexivity.
Qed.

(** X1. Whatever sequence of constructions, writes and moves produced an
    object, it has a publisher and holds no null pointer as its message;
    so its destructor never takes the branch for a null publisher, never
    leaves memory to the plain [delete] of the unique pointer, and makes
    exactly one release call, on the path its publisher selects. *)
Theorem reachable_dtor_one_release (m : message) :
  is_reachable m ->
  exists pb,
    pub_ m = Some pb
    /\ (is_valid m = true -> is_null (release (message_ m)) = false)
    /\ releases (dtor m) = [(path_of pb, release (message_ m))]
    /\ ~ In publisher_is_null (errors (dtor m))
    /\ Forall (fun r => fst r <> PlainDelete) (releases (dtor m)).
Proof.
  intros Hreach.
  destruct (reachable_has_publisher m Hreach) as (pb & Hpub & Hptr).
  exists pb. split; [exact Hpub|].
  split.
  { unfold is_valid. destruct (message_ m) as [[p v]|] eqn:E; [|discriminate].
    intros _. apply (Hptr p v). reflexivity. }
  rewrite (LoanedMessageProofs.releases_dtor rcl m pb Hpub).
  split; [reflexivity|]. split.
  - rewrite (errors_dtor m pb Hpub).
    destruct (_ && _); simpl; [intros [H|[]]; discriminate | tauto].
  - constructor; [|constructor]. unfold path_of. simpl.
    destruct (can_loan_messages pb); discriminate.
Qed.

(** X3. The destructor of a reachable object logs an error exactly when its
    publisher loans and the middleware refuses the return; it then resets
    the rcl error and makes no further attempt, so the refused memory is
    released by no path.  On the allocator's path nothing is ever logged. *)
Theorem reachable_dtor_errors (m : message) :
  is_reachable m ->
  exists pb,
    pub_ m = Some pb
    /\ let refused :=
         can_loan_messages pb
         && negb (rcl_ret_ok (rcl_deallocate_loaned_message rcl
                                (get_publisher_handle pb) (release (message_ m)))) in
       errors (dtor m) = (if refused then [deallocate_failed] else [])
       /\ resets (dtor m) = (if refused then [ev_rcl_reset_error] else [])
       /\ length (releases (dtor m)) = 1
       /\ (can_loan_messages pb = false -> errors (dtor m) = []).
Proof.
  intros Hreach.
  destruct (reachable_has_publisher m Hreach) as (pb & Hpub & _).
  exists pb. split; [exact Hpub|]. cbv zeta.
  rewrite (errors_dtor m pb Hpub), (resets_dtor m pb Hpub),
    (LoanedMessageProofs.releases_dtor rcl m pb Hpub).
  repeat split. intros ->. reflexivity.
Qed.

(** ** Chains of moves *)

Lemma move_chain_shape (n : nat) (m : message) pb c :
  pub_ m = Some pb ->
  message_ m = Some c ->
  pub_ (fst (move_chain n m)) = Some pb
  /\ message_ (fst (move_chain n m)) = Some c
  /\ length (snd (move_chain n m)) = n
  /\ Forall (fun s => pub_ s = Some pb /\ message_ s = None) (snd (move_chain n m)).
Proof.
  revert m. induction n as [|n IH]; intros m Hpub Hmsg.
  - simpl. repeat split; auto.
  - cbn [move_chain]. unfold LoanedMessage_move.
    match goal with
    | |- context [move_chain n ?d] =>
        destruct (IH d Hpub Hmsg) as (H1 & H2 & H3 & H4);
        destruct (move_chain n d) as [holder shells]
    end.
    simpl in *. repeat split; auto.
Qed.

Lemma releases_app tr1 tr2 : releases (tr1 ++ tr2) = releases tr1 ++ releases tr2.
Proof. unfold releases. apply omap_app. Qed.

Lemma releases_destroy_shells (shells : list message) pb :
  Forall (fun s => pub_ s = Some pb /\ message_ s = None) shells ->
  releases (destroy_all rcl shells) = replicate (length shells) (path_of pb, nullptr).
Proof.
  unfold destroy_all. induction 1 as [|s shells [Hpub Hmsg] _ IH]; [reflexivity|].
  cbn [mbind list_bind]. rewrite releases_app, IH.
  rewrite (LoanedMessageProofs.releases_dtor rcl s pb Hpub), Hmsg. reflexivity.
Qed.

Lemma memory_releases_replicate_null n p :
  filter (fun r : path * pointer => is_null (snd r) = false) (replicate n (p, nullptr))
  = [].
Proof. induction n as [|n IH]; [reflexivity|]. simpl. rewrite filter_cons_False; auto. Qed.

(** X2. A constructed message moved [n] times in a row, and then every
    object destroyed: the memory the constructor acquired is released
    once, by the last holder and on the acquiring path; each of the [n]
    moved-from objects adds a release call with a null pointer.  The last
    holder is valid and holds the constructed message, the others are
    invalid. *)
Theorem move_chain_releases_once (n : nat) pub allocator tr (m : message) :
  ctor pub allocator = (tr, inr m) ->
  exists pb mem,
    pub = Some pb
    /\ acquisitions tr = [(path_of pb, mem)]
    /\ memory_releases
         (destroy_all rcl (snd (move_chain n m) ++ [fst (move_chain n m)]))
       = [(path_of pb, mem)]
    /\ releases
         (destroy_all rcl (snd (move_chain n m) ++ [fst (move_chain n m)]))
       = replicate n (path_of pb, nullptr) ++ [(path_of pb, mem)]
    /\ is_valid (fst (move_chain n m)) = true
    /\ get (fst (move_chain n m)) = Some MessageT_init
    /\ Forall (fun s => is_valid s = false) (snd (move_chain n m)).
Proof.
  intros Hctor.
  apply LoanedMessageProofs.ctor_inversion in Hctor as (pb & -> & -> & Hnull & ->).
  set (mem := snd (allocate_message_memory sizeof_MessageT rcl pb allocator)) in *.
  set (m := {| pub_ := Some pb; message_ := Some (mem, MessageT_init);
               message_allocator_ := allocator |}).
  destruct (move_chain_shape n m pb (mem, MessageT_init) eq_refl eq_refl)
    as (Hpub & Hmsg & Hlen & Hshells).
  assert (releases (destroy_all rcl (snd (move_chain n m) ++ [fst (move_chain n m)]))
          = replicate n (path_of pb, nullptr) ++ [(path_of pb, mem)]) as Hrel.
  { unfold destroy_all. rewrite bind_app. fold (destroy_all rcl (snd (move_chain n m))).
    rewrite releases_app, (releases_destroy_shells _ pb Hshells), Hlen.
    f_equal. cbn [mbind list_bind]. rewrite app_nil_r.
    rewrite (LoanedMessageProofs.releases_dtor rcl _ pb Hpub), Hmsg. reflexivity. }
  exists pb, mem. split; [reflexivity|].
  split; [apply LoanedMessageProofs.acquisitions_allocate|].
  split.
  { unfold memory_releases. rewrite Hrel, filter_app, memory_releases_replicate_null.
    simpl. rewrite filter_cons_True by exact Hnull. reflexivity. }
  split; [exact Hrel|].
  split; [unfold is_valid; rewrite Hmsg; reflexivity|].
  split; [unfold get; rewrite Hmsg; reflexivity|].
  eapply Forall_impl; [exact Hshells|].
  intros s [_ Hs]. unfold is_valid. rewrite Hs. reflexivity.
Qed.

(** ** The warning of the allocator's path *)

Lemma warnings_app tr1 tr2 : warnings (tr1 ++ tr2) = warnings tr1 ++ warnings tr2.
Proof. unfold warnings. apply omap_app. Qed.

Lemma warnings_ctor pub allocator :
  warnings (fst (ctor pub allocator))
  = match pub with
    | Some pb => if can_loan_messages pb then [] else [cannot_loan]
    | None => []
    end.
Proof.
  unfold LoanedMessage_ctor. destruct pub as [pb|]; [|reflexivity].
  pose proof (LoanedMessageProofs.warnings_allocate sizeof_MessageT rcl pb allocator) as H.
  destruct (allocate_message_memory sizeof_MessageT rcl pb allocator) as [tr mem].
  destruct (is_null mem); exact H.
Qed.

(** X4. The warning about the missing loan capability is not issued once:
    every construction on a publisher that cannot loan logs it again,
    before the allocator is asked and whether or not it then delivers.
    Constructions on a loaning or a null publisher log none. *)
Theorem warning_per_construction (args : list (option PublisherBase * MessageAllocator)) :
  warnings (construct_all sizeof_MessageT MessageT_init rcl args)
  = replicate (cannot_loan_count args) cannot_loan.
Proof.
  unfold construct_all, cannot_loan_count.
  induction args as [|[pub allocator] args IH]; [reflexivity|].
  cbn [mbind list_bind List.filter fst snd]. rewrite warnings_app, IH, warnings_ctor.
  destruct pub as [pb|]; [|reflexivity].
  destruct (can_loan_messages pb); reflexivity.
Qed.

End Facts.

Lemma reachable_dtor_one_release_witness :
  exists pb,
    pub_ (snd (LoanedMessage_move loaned0)) = Some pb
    /\ (is_valid (snd (LoanedMessage_move loaned0)) = true ->
        is_null (release (message_ (snd (LoanedMessage_move loaned0)))) = false)
    /\ releases (LoanedMessage_dtor middleware0 (snd (LoanedMessage_move loaned0)))
       = [(path_of pb, release (message_ (snd (LoanedMessage_move loaned0))))]
    /\ ~ In publisher_is_null
           (errors (LoanedMessage_dtor middleware0 (snd (LoanedMessage_move loaned0))))
    /\ Forall (fun r => fst r <> PlainDelete)
         (releases (LoanedMessage_dtor middleware0 (snd (LoanedMessage_move loaned0)))).
Proof.
  apply (reachable_dtor_one_release 64%Z 0%Z middleware0).
  apply reachable_moved_from.
  apply (reachable_ctor 64%Z 0%Z middleware0 (Some loaning_publisher) allocator0
           [ev_rcl_allocate_loaned_message 7 64 4096%Z]).
  reflexivity.
Defined.

Lemma reachable_dtor_errors_witness :
  exists pb,
    pub_ (snd (LoanedMessage_move loaned0)) = Some pb
    /\ let refused :=
         can_loan_messages pb
         && negb (rcl_ret_ok (rcl_deallocate_loaned_message middleware0
                                (get_publisher_handle pb)
                                (release (message_ (snd (LoanedMessage_move loaned0)))))) in
       errors (LoanedMessage_dtor middleware0 (snd (LoanedMessage_move loaned0)))
       = (if refused then [deallocate_failed] else [])
       /\ resets (LoanedMessage_dtor middleware0 (snd (LoanedMessage_move loaned0)))
          = (if refused then [ev_rcl_reset_error] else [])
       /\ length (releases (LoanedMessage_dtor middleware0
                              (snd (LoanedMessage_move loaned0)))) = 1
       /\ (can_loan_messages pb = false ->
           errors (LoanedMessage_dtor middleware0 (snd (LoanedMessage_move loaned0)))
           = []).
Proof.
  apply (reachable_dtor_errors 64%Z 0%Z middleware0).
  apply reachable_moved_from.
  apply (reachable_ctor 64%Z 0%Z middleware0 (Some loaning_publisher) allocator0
           [ev_rcl_allocate_loaned_message 7 64 4096%Z]).
  reflexivity.
Defined.

Lemma move_chain_releases_once_witness :
  exists pb mem,
    Some loaning_publisher = Some pb
    /\ acquisitions [ev_rcl_allocate_loaned_message 7 64 4096%Z] = [(path_of pb, mem)]
    /\ memory_releases
         (destroy_all middleware0
            (snd (move_chain 3 loaned0) ++ [fst (move_chain 3 loaned0)]))
       = [(path_of pb, mem)]
    /\ releases
         (destroy_all middleware0
            (snd (move_chain 3 loaned0) ++ [fst (move_chain 3 loaned0)]))
       = replicate 3 (path_of pb, nullptr) ++ [(path_of pb, mem)]
    /\ is_valid (fst (move_chain 3 loaned0)) = true
    /\ get (fst (move_chain 3 loaned0)) = Some 0%Z
    /\ Forall (fun s => is_valid s = false) (snd (move_chain 3 loaned0)).
Proof.
  apply (move_chain_releases_once 64%Z 0%Z middleware0 3
           (Some loaning_publisher) allocator0).
  reflexivity.
Defined.

End LoanedMessageLifecycleProofs.

(* ====================================================================== *)
(** * The QoS event handler over its whole life *)
(* ====================================================================== *)

Module QOSEventLifecycleProofs.
Import QOSEvent QOSEventLifecycle.

Section Facts.

Context {rcl_event_t EventCallbackInfoT : Type}.
Variable rcl_get_zero_initialized_event : rcl_event_t.
Variable rcl_event_fini : rcl_event_t -> rcl_ret_t.
Variable rcl_take_event : rcl_event_t -> rcl_ret_t * EventCallbackInfoT * rcl_event_t.

Local Abbreviation handler := (@QOSEventHandler rcl_event_t).
Local Abbreviation run := (execute rcl_take_event).
Local Abbreviation run_n := (execute_n rcl_take_event).
Local Abbreviation codes := (take_codes rcl_take_event).
Local Abbreviation after := (take_n rcl_take_event).
Local Abbreviation base_dtor := (QOSEventHandlerBase_dtor rcl_event_fini).
Local Abbreviation ctor :=
  (QOSEventHandler_ctor rcl_get_zero_initialized_event rcl_event_fini).

(** One execution, spelled out on the result of its take. *)
Lemma execute_unfold (h : handler) :
  run h
  = (ev_rcl_take_event (fst (fst (rcl_take_event (event_handle_ h))))
       :: (if rcl_ret_ok (fst (fst (rcl_take_event (event_handle_ h))))
           then [ev_event_callback (event_callback_ h)
                   (snd (fst (rcl_take_event (event_handle_ h))))]
           else [RCUTILS_LOG_ERROR_NAMED "rclcpp" "Couldn't take event info: %s"]),
     {| event_handle_ := snd (rcl_take_event (event_handle_ h));
        event_handle_address := event_handle_address h;
        wait_set_event_index_ := wait_set_event_index_ h;
        event_callback_ := event_callback_ h |}).
Proof.
  unfold execute.
  destruct (rcl_take_event (event_handle_ h)) as [[ret info] handle'].
  simpl. destruct (rcl_ret_ok ret); reflexivity.
Qed.

(** X6. [n] executions in a row take from the handle [n] times, each take
    on the handle the previous one left.  The callback runs once for every
    take that succeeded and an error is logged once for every take that
    failed, nothing else happens; the handler keeps its address, its slot
    index and its callback, so its readiness in any wait set is what it
    was. *)
Theorem execute_n_counts (n : nat) (h : handler) (wait_set : rcl_wait_set_t) :
  event_handle_ (snd (run_n n h)) = after n (event_handle_ h)
  /\ filter (fun e => is_take e = true) (fst (run_n n h))
     = ev_rcl_take_event <$> codes n (event_handle_ h)
  /\ length (codes n (event_handle_ h)) = n
  /\ length (filter (fun e => is_callback e = true) (fst (run_n n h)))
     = succeeded (codes n (event_handle_ h))
  /\ length (filter (fun e => is_log e = true) (fst (run_n n h)))
     = failed (codes n (event_handle_ h))
  /\ length (fst (run_n n h)) = 2 * n
  /\ event_callback_ (snd (run_n n h)) = event_callback_ h
  /\ is_ready wait_set (snd (run_n n h)) = is_ready wait_set h.
Proof.
  revert h. induction n as [|n IH]; intros h.
  - repeat split; reflexivity.
  - cbn [execute_n take_codes take_n]. rewrite execute_unfold.
    match goal with
    | |- context [run_n n ?h1] =>
        destruct (IH h1) as (H1 & H2 & H3 & H4 & H5 & H6 & H7 & H8);
        destruct (run_n n h1) as [tr' h'']
    end.
    cbn [fst snd event_handle_ event_callback_] in *.
    destruct (rcl_take_event (event_handle_ h)) as [[ret info] handle'].
    cbn [fst snd] in *. unfold succeeded, failed in *.
    rewrite H1.
    split; [reflexivity|].
    destruct (rcl_ret_ok ret) eqn:Hok; cbn [app List.filter];
      rewrite ?Hok; cbn [negb]; rewrite !filter_cons; simpl;
      rewrite ?H2, ?H3, ?H4, ?H5, ?H7, ?H8;
      repeat split; try reflexivity; try lia.
Qed.

(** X5. In every life of a handler, whether its creation succeeds or not
    and however often it is executed, the handle is initialised once, first
    of all, and finalised once.  After a failed creation it is finalised at
    once, as [init_func] left it, nothing is ever taken from it and the
    constructor throws; otherwise it is finalised after the [n] takes, in
    the state they left. *)
Theorem lifecycle_balanced (this : pointer) (index callback n : nat)
    (init_func : rcl_event_t -> rcl_ret_t * rcl_event_t) :
  let ret := fst (init_func rcl_get_zero_initialized_event) in
  let handle := snd (init_func rcl_get_zero_initialized_event) in
  let life :=
    lifecycle rcl_get_zero_initialized_event rcl_event_fini rcl_take_event
      this index callback init_func n in
  head (fst life) = Some (ev_init_func ret)
  /\ filter (fun e => is_init e = true) (fst life) = [ev_init_func ret]
  /\ (if rcl_ret_ok ret then
        filter (fun e => is_fini e = true) (fst life)
        = [ev_rcl_event_fini (rcl_event_fini (after n handle))]
        /\ filter (fun e => is_take e = true) (snd life)
           = ev_rcl_take_event <$> codes n handle
      else
        filter (fun e => is_fini e = true) (fst life)
        = [ev_rcl_event_fini (rcl_event_fini handle)]
        /\ snd life = []
        /\ snd (ctor this index callback init_func)
           = inl (rcl_error ret "could not create event")).
Proof.
  cbv zeta. unfold lifecycle, QOSEventHandler_ctor.
  destruct (init_func rcl_get_zero_initialized_event) as [ret handle].
  cbn [fst snd]. destruct (rcl_ret_ok ret) eqn:Hok.
  - match goal with
    | |- context [run_n n ?h0] =>
        destruct (execute_n_counts n h0 {| events := [] |})
          as (H1 & H2 & _);
        destruct (run_n n h0) as [executed h']
    end.
    cbn [fst snd event_handle_] in *. unfold QOSEventHandlerBase_dtor.
    rewrite H1. split; [reflexivity|].
    destruct (rcl_ret_ok (rcl_event_fini (after n handle)));
      (split; [reflexivity|]); (split; [reflexivity | exact H2]).
  - unfold QOSEventHandlerBase_dtor. cbn [event_handle_ fst snd].
    split; [reflexivity|].
    destruct (rcl_ret_ok (rcl_event_fini handle)); repeat split; reflexivity.
Qed.

(** X7. [is_ready] has no answer exactly when the handler's index lies
    past the end of the wait set's array; two handlers registered at the
    same index with different handles are never both ready; and a slot
    that was cleared to null makes a handler not ready. *)
Theorem is_ready_bounds_and_exclusion (wait_set : rcl_wait_set_t) (h : handler) :
  (is_ready wait_set h = None
   <-> length (events wait_set) <= wait_set_event_index_ h)
  /\ (forall h' : handler,
        wait_set_event_index_ h' = wait_set_event_index_ h ->
        event_handle_address h' <> event_handle_address h ->
        ~ (is_ready wait_set h = Some true /\ is_ready wait_set h' = Some true))
  /\ (events wait_set !! wait_set_event_index_ h = Some nullptr ->
      event_handle_address h <> nullptr ->
      is_ready wait_set h = Some false).
Proof.
  split; [|split].
  - unfold is_ready. rewrite <- lookup_ge_None.
    destruct (events wait_set !! wait_set_event_index_ h); split;
      (discriminate || reflexivity).
  - intros h' Hidx Hne [Hh Hh'].
    apply QOSEventProofs.is_ready_true_iff in Hh, Hh'.
    rewrite Hidx in Hh'. rewrite Hh in Hh'. injection Hh' as Heq.
    apply Hne. symmetry. exact Heq.
  - intros Hslot Hne. unfold is_ready. rewrite Hslot. f_equal.
    apply Z.eqb_neq. intros Heq. apply Hne. symmetry. exact Heq.
Qed.

End Facts.

End QOSEventLifecycleProofs.

(* ====================================================================== *)
(** * The parameter clients: services, completion, the blocking calls *)
(* ====================================================================== *)

Module ParameterClientCompletionProofs.
Import ParameterClient ParameterClientCompletion SyncParameterClient.

(** ** Services *)




(** ** Completion while the captured objects are alive *)

Lemma resolve_live promise_result future_result callback v w s s' cb :
  stack w !! promise_result = Some (obj_promise s) ->
  shared_states w !! s = Some not_ready ->
  stack w !! callback = Some (obj_callback cb) ->
  stack w !! future_result = Some (obj_shared_future s') ->
  resolve promise_result future_result callback v w = inr (tt, resolved w s v cb s').
Proof.
  intros Hp Hs Hc Hf.
  cbv beta delta [resolve set_value bind read_promise].
  rewrite Hp. cbv beta iota. rewrite Hs. cbv beta iota delta [set_state].
  cbv beta delta [read_callback]. cbn [stack]. rewrite Hc. cbv beta iota.
  destruct cb as [g|].
  - cbv beta delta [bind read_shared_future emit]. cbn [stack]. rewrite Hf.
    cbv beta iota. cbn [stack next_object shared_states next_state pending trace].
    reflexivity.
  - cbv beta delta [ret]. unfold resolved.
    cbn [stack next_object shared_states next_state pending trace].
    rewrite app_nil_r. reflexivity.
Qed.

(** X9. Run while the promise, the future handle and the callback it
    names are alive and the promise has no value yet, the continuation of
    get-types, set, set-atomically or list passes the payload of the
    response on unchanged (no filtering, no reordering): the shared state
    becomes ready with it, then the callback, if there is one, is called
    once with the future; nothing else in the world changes. *)
Theorem continuation_passes_response_on (L : layout) (k : continuation)
    (resp : response) (v : result) (w : world)
    (promise_result future_result callback s s' : nat) (cb : option nat) :
  accepts k resp = true ->
  passed_on resp = Some v ->
  captures k = [promise_result; future_result; callback] ->
  stack w !! promise_result = Some (obj_promise s) ->
  shared_states w !! s = Some not_ready ->
  stack w !! callback = Some (obj_callback cb) ->
  stack w !! future_result = Some (obj_shared_future s') ->
  run_continuation L k resp w = inr (tt, resolved w s v cb s').
Proof.
  intros Hacc Hpass Hcap Hp Hs Hc Hf.
  destruct k as [n p f c|p f c|p f c|p f c|p f c];
    destruct resp as [values|pts|results|r|r];
    try discriminate Hacc; try discriminate Hcap;
    injection Hcap as -> -> ->; injection Hpass as <-;
    cbn [run_continuation]; apply resolve_live; assumption.
Qed.

(** ** The calls that only pass the response on *)

(** X12. [get_parameter_types] and [list_parameters] send the names, the
    prefixes and the depth as given, call no callback before they return,
    and return like their siblings: the continuation they registered
    refers to three destroyed objects, the returned future holds
    [broken_promise], and the dispatch of the response stops at a dangling
    reference. *)
Theorem types_and_list_return_broken (node : Node) (remote : string)
    (names prefixes : list string) (depth : Z) (callback : option nat)
    (w : world) (L : layout) (pts : list Z) (listed : ListParametersResult) :
  let this := AsyncParametersClient_ctor node remote in
  (exists future w' k,
     get_parameter_types this names callback w = inr (future, w')
     /\ returned w (remote_node_name_ this +:+ "__get_parameter_types")
          (GetParameterTypes_Request names) k future w'
     /\ length (captures k) = 3
     /\ exists a, In a (captures k)
          /\ handle_response L (length (pending w))
               (GetParameterTypes_Response pts) w'
             = inl (dangling_reference a))
  /\ (exists future w' k,
     list_parameters this prefixes depth callback w = inr (future, w')
     /\ returned w (remote_node_name_ this +:+ "__list_parameters")
          (ListParameters_Request prefixes depth) k future w'
     /\ length (captures k) = 3
     /\ exists a, In a (captures k)
          /\ handle_response L (length (pending w))
               (ListParameters_Response listed) w'
             = inl (dangling_reference a)).
Proof.
  intros this. split.
  - destruct (ParameterClientProofs.get_parameter_types_returns this _ names callback w
                (ParameterClientProofs.ctor_get_parameter_types_client node remote))
      as (future & w' & p & f & c & Hcall & Hret).
    exists future, w', (get_parameter_types_lambda p f c).
    split; [exact Hcall|]. split; [exact Hret|]. split; [reflexivity|].
    eapply ParameterClientProofs.handle_response_after_return;
      [exact Hret | reflexivity].
  - destruct (ParameterClientProofs.list_parameters_returns this _ prefixes depth
                callback w
                (ParameterClientProofs.ctor_list_parameters_client node remote))
      as (future & w' & p & f & c & Hcall & Hret).
    exists future, w', (list_parameters_lambda p f c).
    split; [exact Hcall|]. split; [exact Hret|]. split; [reflexivity|].
    eapply ParameterClientProofs.handle_response_after_return;
      [exact Hret | reflexivity].
Qed.

(** ** The blocking calls *)

Section WithExecutor.

Variable spin : Executor -> Node -> nat -> M unit.

(** X10. On a synchronous client built by either constructor, the atomic
    set stops at the null client of the asynchronous client it wraps,
    before the executor is spun, whatever the executor does. *)
Theorem sync_set_parameters_atomically_null (executor : Executor) (node : Node)
    (parameters : list ParameterVariant) (w : world) :
  sync_set_parameters_atomically spin (SyncParametersClient_ctor executor node)
    parameters w = inl null_dereference
  /\ sync_set_parameters_atomically spin
       (SyncParametersClient_ctor_executor executor node) parameters w
     = inl null_dereference.
Proof.
  split; unfold sync_set_parameters_atomically; unfold bind at 1;
    rewrite ParameterClientProofs.set_parameters_atomically_null; reflexivity.
Qed.

(** A blocking call on top of an asynchronous call that returned a broken
    future. *)
Lemma blocking_call_outcome (call : M nat) (e : Executor) (n : Node) w future w1 :
  keeps_broken_promises spin ->
  call w = inr (future, w1) ->
  shared_states w1 !! future = Some broken_promise ->
  (exists err, (do f <- call; spin e n f ;; future_get f) w = inl err)
  \/ (exists w2, (do f <- call; spin e n f ;; future_get f) w
                 = inr (future_error_broken_promise, w2)).
Proof.
  intros Hkeeps Hcall Hbroken.
  unfold bind. rewrite Hcall. cbv beta iota.
  destruct (spin e n future w1) as [err|[[] w2]] eqn:Hspin.
  - left. exists err. reflexivity.
  - right. exists w2. cbv beta iota delta [future_get].
    rewrite (Hkeeps e n future w1 w2 Hbroken Hspin). reflexivity.
Qed.

(** X11. With an executor under which a broken promise stays broken, the
    blocking get, get-types, set and list of a synchronous client never
    deliver a value: the asynchronous call hands back a future whose
    promise is already destroyed, so each call either goes wrong while
    spinning or ends in the [broken_promise] error of [future.get()]. *)
Theorem sync_calls_never_deliver (executor : Executor) (node : Node)
    (names prefixes : list string) (depth : Z)
    (parameters : list ParameterVariant) (w : world) :
  keeps_broken_promises spin ->
  let c := SyncParametersClient_ctor executor node in
  let fails (m : M get_outcome) :=
    (exists err, m w = inl err)
    \/ (exists w', m w = inr (future_error_broken_promise, w')) in
  fails (sync_get_parameters spin c names)
  /\ fails (sync_get_parameter_types spin c names)
  /\ fails (sync_set_parameters spin c parameters)
  /\ fails (sync_list_parameters spin c prefixes depth).
Proof.
  intros Hkeeps c fails. unfold fails.
  split; [|split; [|split]].
  - destruct (ParameterClientProofs.get_parameters_returns
                (async_parameters_client_ c) _ names None w
                (ParameterClientProofs.ctor_get_parameters_client node ""))
      as (future & w1 & n & p & f & cb & Hcall & _ & _ & Hbroken & _).
    exact (blocking_call_outcome _ _ _ w future w1 Hkeeps Hcall Hbroken).
  - destruct (ParameterClientProofs.get_parameter_types_returns
                (async_parameters_client_ c) _ names None w
                (ParameterClientProofs.ctor_get_parameter_types_client node ""))
      as (future & w1 & p & f & cb & Hcall & _ & _ & Hbroken & _).
    exact (blocking_call_outcome _ _ _ w future w1 Hkeeps Hcall Hbroken).
  - destruct (ParameterClientProofs.set_parameters_returns
                (async_parameters_client_ c) _ parameters None w
                (ParameterClientProofs.ctor_set_parameters_client node ""))
      as (future & w1 & p & f & cb & Hcall & _ & _ & Hbroken & _).
    exact (blocking_call_outcome _ _ _ w future w1 Hkeeps Hcall Hbroken).
  - destruct (ParameterClientProofs.list_parameters_returns
                (async_parameters_client_ c) _ prefixes depth None w
                (ParameterClientProofs.ctor_list_parameters_client node ""))
      as (future & w1 & p & f & cb & Hcall & _ & _ & Hbroken & _).
    exact (blocking_call_outcome _ _ _ w future w1 Hkeeps Hcall Hbroken).
Qed.

End WithExecutor.

Lemma continuation_passes_response_on_witness :
  run_continuation layout0 (set_parameters_atomically_lambda 1 2 0)
    (SetParametersAtomically_Response {| successful := true; reason := "ok" |})
    world_live
  = inr (tt, resolved world_live 0
               (set_parameters_result {| successful := true; reason := "ok" |})
               (Some 5) 0).
Proof.
  apply (continuation_passes_response_on layout0
           (set_parameters_atomically_lambda 1 2 0)
           (SetParametersAtomically_Response {| successful := true; reason := "ok" |})
           (set_parameters_result {| successful := true; reason := "ok" |})
           world_live 1 2 0 0 0 (Some 5));
    vm_compute; reflexivity.
Defined.

Lemma sync_calls_never_deliver_witness :
  let c := SyncParametersClient_ctor {| executor_id := 0 |} {| get_name := "talker" |} in
  let fails (m : M get_outcome) :=
    (exists err, m world0 = inl err)
    \/ (exists w', m world0 = inr (future_error_broken_promise, w')) in
  fails (sync_get_parameters spin_returns c ["a"])
  /\ fails (sync_get_parameter_types spin_returns c ["a"])
  /\ fails (sync_set_parameters spin_returns c [])
  /\ fails (sync_list_parameters spin_returns c [] 1%Z).
Proof.
  apply (sync_calls_never_deliver spin_returns {| executor_id := 0 |}
           {| get_name := "talker" |} ["a"] [] 1%Z [] world0).
  intros e n f w w' Hbroken [= <-]. exact Hbroken.
Defined.

(** With that executor the blocking get ends in the error: no fault. *)
Example sync_get_parameters_talker :
  exists w',
    sync_get_parameters spin_returns
      (SyncParametersClient_ctor {| executor_id := 0 |} {| get_name := "talker" |})
      ["a"] world0
    = inr (future_error_broken_promise, w').
Proof. eexists. vm_compute. reflexivity. Qed.

End ParameterClientCompletionProofs.
